(** * Knowledge Vault ([vault.js]): parser, discovery and link reconciliation

    A shallow embedding of [vault.js] together with the properties of its
    URL parser ([parseGitUrl]), repository discovery ([findGitRepos]), link
    reconciliation ([ensureLink]) and the two commands built on them
    ([cmdPull], [cmdAdd]), followed by further properties of these and of
    the configuration ([loadEnv], [getSrcDirs]), the tool check
    ([ensureTools]), the status command ([cmdStatus]) and the command line.

    Conventions of the embedding:
    - a JavaScript string is a [string] of 8-bit code units (the Latin-1
      part of UTF-16);
    - an absolute, normalised path is the list of its segments, the root
      directory being [[]]; a separator at the end of a path, which
      [path.join] keeps, is a last segment that is empty; [path.join] and
      [path.dirname] act on segments;
    - the [fs] module is modelled by a finite map from absolute paths to
      inodes with POSIX resolution of links (at most [SYMLOOP_MAX] links are
      crossed in one resolution), r/w/x bits on directories, and directory
      listings sorted by name;
    - git, the look-up of a tool and an installer are external commands: each
      is given by what it does to the file system and whether it succeeds,
      in the runs in which it returns;
    - console output, exceptions and [process.exit] live in a small state
      and error monad [M]. *)

From Stdlib Require Import Ascii DecimalString.
From stdpp Require Import gmap strings list fin_maps sorting.

Set Default Proof Using "Type".

(** ** Strings *)

Module Str.

(** [s.split(sep)] for a one-character separator. *)
Fixpoint split (sep : ascii) (s : string) : list string :=
  match s with
  | EmptyString => [""]
  | String c s' =>
      if Ascii.eqb c sep then "" :: split sep s'
      else match split sep s' with
           | h :: t => String c h :: t
           | [] => [String c ""]
           end
  end.

(** [l.join(sep)]. *)
Definition join (sep : string) (l : list string) : string := String.concat sep l.

(** [s.startsWith(p)]. *)
Definition startsWith (p s : string) : bool := String.prefix p s.

(** [s] ends with [sfx]; used to state properties, not by the program. *)
Definition endsWith (sfx s : string) : Prop := ∃ p, s = p +:+ sfx.

(** No code unit of [s] satisfies [f]. *)
Fixpoint free_of (f : ascii → bool) (s : string) : bool :=
  match s with
  | EmptyString => true
  | String c s' => negb (f c) && free_of f s'
  end.

(** Decimal rendering of a number, as [n + ""] does. *)
Definition of_nat (n : nat) : string := NilZero.string_of_uint (Nat.to_uint n).

(** White space and line terminators of the 8-bit alphabet, as [trim]
    removes them: TAB, LF, VT, FF, CR, SP and NBSP. *)
Definition is_space (a : ascii) : bool :=
  bool_decide (nat_of_ascii a ∈ [9; 10; 11; 12; 13; 32; 160]).

Fixpoint trim_start (s : string) : string :=
  match s with
  | EmptyString => ""
  | String c s' => if is_space c then trim_start s' else s
  end.

Fixpoint trim_end (s : string) : string :=
  match s with
  | EmptyString => ""
  | String c s' =>
      let t := trim_end s' in
      if is_space c && bool_decide (t = "") then "" else String c t
  end.

(** [s.trim()]. *)
Definition trim (s : string) : string := trim_end (trim_start s).

(** [s.indexOf(c)] for one code unit; [None] for [-1]. *)
Fixpoint index_of (c : ascii) (s : string) : option nat :=
  match s with
  | EmptyString => None
  | String a s' => if Ascii.eqb a c then Some 0 else S <$> index_of c s'
  end.

(** [s.slice(0, n)]. *)
Fixpoint take (n : nat) (s : string) : string :=
  match n, s with
  | S n', String a s' => String a (take n' s')
  | _, _ => ""
  end.

(** [s.slice(n)]. *)
Fixpoint drop (n : nat) (s : string) : string :=
  match n, s with
  | S n', String _ s' => drop n' s'
  | _, _ => s
  end.

End Str.

(** ** Regular expressions

    A backtracking matcher for the fragment of ECMAScript regular
    expressions that [parseGitUrl] uses.  A pattern is matched from the
    first code unit of the input (both patterns of the program start with
    [^] and carry no flag). *)

Module Regex.

(** Line terminators of the 8-bit alphabet: LF and CR. *)
Definition is_line_terminator (a : ascii) : bool :=
  Ascii.eqb a "010"%char || Ascii.eqb a "013"%char.

Inductive cls :=
| Any               (* [.] : every code unit but a line terminator *)
| Not (c : ascii).  (* [[^c]] *)

Definition cls_test (k : cls) (a : ascii) : bool :=
  match k with
  | Any => negb (is_line_terminator a)
  | Not c => negb (Ascii.eqb a c)
  end.

Inductive re :=
| Lit (l : string)      (* a run of literal code units *)
| Plus (k : cls)        (* [k+], greedy *)
| LazyPlus (k : cls)    (* [k+?], lazy *)
| Opt (r : re)          (* [(?:r)?], greedy *)
| Group (r : re)        (* [(r)], capturing *)
| Seq (r1 r2 : re)
| Eos.                  (* [$] *)

(** [strip l s] removes the literal [l] from the front of [s]. *)
Fixpoint strip (l s : string) : option string :=
  match l with
  | EmptyString => Some s
  | String a l' =>
      match s with
      | String b s' => if Ascii.eqb a b then strip l' s' else None
      | EmptyString => None
      end
  end.

(** Greedy [k+]: the longest run first, shorter ones on backtracking.  The
    continuation receives the matched text and the rest of the input. *)
Fixpoint plus_greedy {A} (k : cls) (s : string)
    (κ : string → string → option A) : option A :=
  match s with
  | EmptyString => None
  | String a s' =>
      if cls_test k a then
        match plus_greedy k s' (λ mt rest, κ (String a mt) rest) with
        | Some x => Some x
        | None => κ (String a "") s'
        end
      else None
  end.

(** Lazy [k+?]: the shortest run first. *)
Fixpoint plus_lazy {A} (k : cls) (s : string)
    (κ : string → string → option A) : option A :=
  match s with
  | EmptyString => None
  | String a s' =>
      if cls_test k a then
        match κ (String a "") s' with
        | Some x => Some x
        | None => plus_lazy k s' (λ mt rest, κ (String a mt) rest)
        end
      else None
  end.

(** Continuations take the text matched, the rest of the input and the
    captures made so far. *)
Definition cont := string → string → list string → option (list string).

Fixpoint run (r : re) (s : string) (caps : list string) (κ : cont)
    : option (list string) :=
  match r with
  | Lit l =>
      match strip l s with
      | Some rest => κ l rest caps
      | None => None
      end
  | Plus k => plus_greedy k s (λ mt rest, κ mt rest caps)
  | LazyPlus k => plus_lazy k s (λ mt rest, κ mt rest caps)
  | Opt r' =>
      match run r' s caps κ with
      | Some x => Some x
      | None => κ "" s caps
      end
  | Group r' => run r' s caps (λ mt rest caps', κ mt rest (caps' ++ [mt]))
  | Seq r1 r2 =>
      run r1 s caps (λ m1 s1 c1,
        run r2 s1 c1 (λ m2 s2 c2, κ (m1 +:+ m2) s2 c2))
  | Eos =>
      match s with
      | EmptyString => κ "" "" caps
      | String _ _ => None
      end
  end.

(** [s.match(r)]: [None] for [null], otherwise the array of the whole match
    followed by the captured groups. *)
Definition exec (r : re) (s : string) : option (list string) :=
  run r s [] (λ mt _ caps, Some (mt :: caps)).

Definition seq (rs : list re) : re := foldr Seq (Lit "") rs.

End Regex.

(** ** Paths *)

(** An absolute normalised path, as the list of its segments. *)
Abbreviation path := (list string).

Module Path.

(** One segment of [path.normalize]: empty and [.] segments vanish, [..]
    climbs (the root is its own parent). *)
Definition norm_step (acc : path) (seg : string) : path :=
  if decide (seg = "" ∨ seg = ".") then acc
  else if decide (seg = "..") then removelast acc
  else acc ++ [seg].

(** The segments of [base + "/" + rel] after normalisation, for an absolute
    normalised [base] and a string [rel] with [/] separators. *)
Definition segments (base : path) (rel : string) : path :=
  fold_left norm_step (Str.split "/" rel) base.

(** [rel] ends with a separator. *)
Definition trailing (rel : string) : bool :=
  negb (bool_decide (rel = "")) && bool_decide (last (Str.split "/" rel) = Some "").

(** [path.join(base, rel)]: normalisation keeps a separator at the end of
    [rel], unless the result is the root. *)
Definition join (base : path) (rel : string) : path :=
  let p := segments base rel in
  if trailing rel && negb (bool_decide (p = [])) then p ++ [""] else p.

(** [path.resolve(base, rel)] for an absolute normalised [base]: an absolute
    [rel] stands for itself, and no separator is kept at the end. *)
Definition resolve (base : path) (rel : string) : path :=
  if Str.startsWith "/" rel then segments [] rel else segments base rel.

(** A path without the separator at its end. *)
Definition strip (p : path) : path :=
  if bool_decide (last p = Some "") then removelast p else p.

(** [path.dirname(p)]. *)
Definition dirname (p : path) : path := removelast (strip p).

(** [path.basename(p)]. *)
Definition basename (p : path) : string := default "" (last (strip p)).

(** Drop the longest common prefix of two paths. *)
Fixpoint drop_common (from to : path) : path * path :=
  match from, to with
  | x :: from', y :: to' =>
      if decide (x = y) then drop_common from' to' else (from, to)
  | _, _ => (from, to)
  end.

(** [path.relative(from, to)]: climb out of what is left of [from], then
    descend along what is left of [to]. *)
Definition relative (from to : path) : string :=
  let '(up, down) := drop_common from to in
  Str.join "/" (replicate (length up) ".." ++ down).

(** The text of an absolute path. *)
Definition show (p : path) : string := "/" +:+ Str.join "/" p.

End Path.

(** A name that can stand for one segment of a path. *)
Definition valid_name (nm : string) : bool :=
  Str.free_of (Ascii.eqb "/") nm && negb (bool_decide (nm ∈ [""; "."; ".."])).

(** ** File system *)

Module Fs.

Record perm := Perm { p_r : bool; p_w : bool; p_x : bool }.

Definition rwx : perm := Perm true true true.

Inductive inode :=
| File (content : string)
| Dir (pm : perm)
| Symlink (target : path).   (* a symbolic link or a junction *)

(** The file system: what lies at each absolute path.  The entry at [[]] is
    the root directory. *)
Abbreviation FS := (gmap path inode).

(** The number of links that one resolution may cross (ELOOP beyond it). *)
Definition SYMLOOP_MAX : nat := 40.

(** Resolve the segments [p] from the resolved directory [cur], following
    every link on the way, the last segment included; [k] links were crossed
    before.  Every directory that is crossed must be searchable; an empty
    segment (a separator at the end) asks for a directory and stays there.
    The result is the number of links crossed so far and the place reached.
    [n] bounds the nesting of links, for the recursion only: no more links
    nest than are crossed. *)
Fixpoint resolve_from (n : nat) (fs : FS)
    : nat → path → list string → option (nat * path) :=
  fix go (k : nat) (cur : path) (p : list string) {struct p} : option (nat * path) :=
    match p with
    | [] => Some (k, cur)
    | seg :: rest =>
        match fs !! cur with
        | Some (Dir pm) =>
            if bool_decide (seg = "") then go k cur rest
            else if p_x pm then
              match fs !! (cur ++ [seg]) with
              | None => None
              | Some (Symlink t) =>
                  match n with
                  | O => None
                  | S n' =>
                      if bool_decide (k < SYMLOOP_MAX) then
                        match resolve_from n' fs (S k) [] t with
                        | Some (k', c) => go k' c rest
                        | None => None
                        end
                      else None
                  end
              | Some _ => go k (cur ++ [seg]) rest
              end
            else None
        | _ => None
        end
    end.

(** One resolution from the root: the number of links crossed and the place
    reached. *)
Definition crossing (fs : FS) (p : path) : option (nat * path) :=
  resolve_from SYMLOOP_MAX fs 0 [] p.

Definition resolve (fs : FS) (p : path) : option path := snd <$> crossing fs p.

(** [fs.existsSync(p)]: [stat] succeeds; never throws. *)
Definition existsSync (fs : FS) (p : path) : bool :=
  bool_decide (is_Some (resolve fs p)).

(** A directory entry as [readdirSync(_, {withFileTypes: true})] yields it:
    the name and the type of the entry itself (a link is not followed). *)
Record dirent := Dirent { name : string; kind : inode }.

Definition isDirectory (e : dirent) : bool :=
  match kind e with Dir _ => true | _ => false end.

Fixpoint strip_prefix (c k : path) : option path :=
  match c with
  | [] => Some k
  | x :: c' =>
      match k with
      | y :: k' => if decide (x = y) then strip_prefix c' k' else None
      | [] => None
      end
  end.

Definition child_of (c : path) (kv : path * inode) : option dirent :=
  match strip_prefix c kv.1 with
  | Some [nm] => if valid_name nm then Some (Dirent nm kv.2) else None
  | _ => None
  end.

(** The order of a listing: by name, code unit by code unit. *)
Definition name_le (a b : dirent) : Prop := String.leb (name a) (name b).

(** The entries directly inside the directory at the resolved path [c], as
    a listing gives them: every entry with a proper name, sorted by name. *)
Definition children (fs : FS) (c : path) : list dirent :=
  merge_sort name_le (omap (child_of c) (map_to_list fs)).

(** [fs.readdirSync(d, {withFileTypes: true})]; [None] when it throws
    (not a directory, missing, or not readable). *)
Definition readdirSync (fs : FS) (d : path) : option (list dirent) :=
  match resolve fs d with
  | Some c =>
      match fs !! c with
      | Some (Dir pm) => if p_r pm then Some (children fs c) else None
      | _ => None
      end
  | None => None
  end.

(** [fs.readFileSync(p, "utf-8")]; [None] when it throws (missing, or not
    a regular file). *)
Definition readFileSync (fs : FS) (p : path) : option string :=
  match resolve fs p with
  | Some c =>
      match fs !! c with
      | Some (File content) => Some content
      | _ => None
      end
  | None => None
  end.

(** [fs.mkdirSync(p, {recursive: true})]: the directories along [p] that
    are missing are made, from the top; [made] is the part of [p] that is
    known to lead to a directory, [todo] the rest.  A segment that resolves
    must lead to a directory; one that does not is made in the directory
    before it, which must be writable and searchable and hold no entry of
    that name (a link to nowhere is in the way).  A new directory belongs to
    the user, with all three permissions.  The result is the file system as
    the call leaves it, and whether it succeeded ([false] when it throws):
    what was made before a failure stays. *)
Fixpoint mkdirp_from (fs : FS) (made : path) (todo : list string) : FS * bool :=
  match todo with
  | [] => (fs, true)
  | seg :: rest =>
      match resolve fs (made ++ [seg]) with
      | Some c =>
          match fs !! c with
          | Some (Dir _) => mkdirp_from fs (made ++ [seg]) rest
          | _ => (fs, false)
          end
      | None =>
          match resolve fs made with
          | Some d =>
              match fs !! d with
              | Some (Dir pm) =>
                  if p_w pm && p_x pm then
                    match fs !! (d ++ [seg]) with
                    | None =>
                        mkdirp_from (<[d ++ [seg] := Dir rwx]> fs) (made ++ [seg]) rest
                    | Some _ => (fs, false)
                    end
                  else (fs, false)
              | _ => (fs, false)
              end
          | None => (fs, false)
          end
      end
  end.

Definition mkdirSync_recursive (fs : FS) (p : path) : FS * bool :=
  mkdirp_from fs [] p.

(** Creation of a directory link at [link] pointing to [target]:
    [fs.symlinkSync(target, link, "dir")], and the effect of
    [mklink /J link target].  The last segment must be a proper name (a
    separator at the end of [link] is refused); the parent must resolve to
    a writable, searchable directory and hold no entry of that name yet. *)
Definition symlinkSync (fs : FS) (target link : path) : option FS :=
  match last link with
  | None => None
  | Some nm =>
      if valid_name nm then
        match resolve fs (Path.dirname link) with
        | Some c =>
            match fs !! c with
            | Some (Dir pm) =>
                if p_w pm && p_x pm then
                  match fs !! (c ++ [nm]) with
                  | None => Some (<[c ++ [nm] := Symlink target]> fs)
                  | Some _ => None
                  end
                else None
            | _ => None
            end
        | None => None
        end
      else None
  end.

End Fs.

Import Fs.

(** ** Effects

    The program prints, throws and exits.  A computation takes the world
    (file system and everything printed so far) and ends in one of four
    ways; the world it leaves behind is kept in each of them. *)

Inductive event :=
| Stdout (s : string)   (* [process.stdout.write] *)
| Log (s : string)      (* [console.log] *)
| Warn (s : string)     (* [console.warn] *)
| Error (s : string).   (* [console.error] *)

Record world := World { w_fs : FS; w_out : list event }.

Inductive completion (A : Type) :=
| Return (a : A)            (* normal completion *)
| Throw (origin : string)   (* an uncaught exception *)
| Exit (code : nat)         (* [process.exit(code)] *)
| Diverge.                  (* the walk of the model ran out of fuel *)
Arguments Return {A} a.
Arguments Throw {A} origin.
Arguments Exit {A} code.
Arguments Diverge {A}.

Definition M (A : Type) : Type := world → completion A * world.

#[global] Instance M_ret : MRet M := λ A a w, (Return a, w).

#[global] Instance M_bind : MBind M := λ A B f m w,
  match m w with
  | (Return a, w') => f a w'
  | (Throw o, w') => (Throw o, w')
  | (Exit c, w') => (Exit c, w')
  | (Diverge, w') => (Diverge, w')
  end.

Definition emit (e : event) : M unit :=
  λ w, (Return (), World (w_fs w) (w_out w ++ [e])).

Definition exit {A} (code : nat) : M A := λ w, (Exit code, w).

Definition get_fs : M FS := λ w, (Return (w_fs w), w).

(** A file-system primitive that throws when it fails. *)
Definition fs_update (origin : string) (f : FS → option FS) : M unit :=
  λ w, match f (w_fs w) with
       | Some fs' => (Return (), World fs' (w_out w))
       | None => (Throw origin, w)
       end.

(** A file-system primitive that may throw after it changed something:
    what it did stays. *)
Definition fs_try (origin : string) (f : FS → FS * bool) : M unit :=
  λ w, let '(fs', ok) := f (w_fs w) in
       if (ok : bool) then (Return (), World fs' (w_out w))
       else (Throw origin, World fs' (w_out w)).

(** [try { body } catch (e) { handler }]. *)
Definition try_catch {A} (body : M A) (handler : M A) : M A :=
  λ w, match body w with
       | (Throw _, w') => handler w'
       | r => r
       end.

(** [for (const x of l) { acc = body(acc, x) }]. *)
Fixpoint for_of {A B} (l : list A) (acc : B) (body : B → A → M B) : M B :=
  match l with
  | [] => mret acc
  | x :: l' => acc' ← body acc x; for_of l' acc' body
  end.

(** ** Repository discovery *)

(** The test of line 137 on a directory entry. *)
Definition descend (e : dirent) : bool :=
  isDirectory e && negb (Str.startsWith "." (name e))
               && negb (bool_decide (name e = "node_modules")).

(** The loop over the entries of a directory, with the recursive call as a
    parameter; [None] is lack of fuel. *)
Fixpoint walk_entries (rec : path → list path → option (list path))
    (d : path) (entries : list dirent) (repos : list path)
    : option (list path) :=
  match entries with
  | [] => Some repos
  | e :: rest =>
      if descend e then
        match rec (d ++ [name e]) repos with
        | Some repos' => walk_entries rec d rest repos'
        | None => None
        end
      else walk_entries rec d rest repos
  end.

(** [walk(d)] of [findGitRepos], threading the array [repos] it pushes to.
    The file system is only read. *)
Fixpoint walk (fuel : nat) (fs : FS) (d : path) (repos : list path)
    : option (list path) :=
  match fuel with
  | O => None
  | S fuel' =>
      if existsSync fs (d ++ [".git"]) then Some (repos ++ [d])
      else match readdirSync fs d with
           | None => Some repos
           | Some entries => walk_entries (walk fuel' fs) d entries repos
           end
  end.

(** The length of the longest path of the file system. *)
Definition depth (fs : FS) : nat :=
  map_fold (λ k _ acc, length k `max` acc) 0 fs.

(** Fuel that no walk of [fs] exhausts. *)
Definition walk_fuel (fs : FS) : nat := S (S (depth fs)).

Definition findGitRepos (fs : FS) (dir : path) : option (list path) :=
  if negb (existsSync fs dir) then Some []
  else walk (walk_fuel fs) fs dir [].

(** ** URL parsing *)

(** [/^git@([^:]+):(.+?)(?:\.git)?$/] *)
Definition sshRe : Regex.re :=
  Regex.seq [Regex.Lit "git@"; Regex.Group (Regex.Plus (Regex.Not ":"));
             Regex.Lit ":"; Regex.Group (Regex.LazyPlus Regex.Any);
             Regex.Opt (Regex.Lit ".git"); Regex.Eos].

(** [/^https?:\/\/([^/]+)\/(.+?)(?:\.git)?$/] *)
Definition httpsRe : Regex.re :=
  Regex.seq [Regex.Lit "http"; Regex.Opt (Regex.Lit "s"); Regex.Lit "://";
             Regex.Group (Regex.Plus (Regex.Not "/"));
             Regex.Lit "/"; Regex.Group (Regex.LazyPlus Regex.Any);
             Regex.Opt (Regex.Lit ".git"); Regex.Eos].

Record parsed := Parsed { org : string; projectPath : string }.

(** [m[i]] on a match array. *)
Definition group (m : list string) (i : nat) : string := default "" (m !! i).

Definition parseGitUrl (url : string) : M parsed :=
  let sshMatch := Regex.exec sshRe url in
  let httpsMatch := Regex.exec httpsRe url in
  repoPath ←
    match sshMatch, httpsMatch with
    | Some m, _ => mret (group m 2)
    | None, Some m => mret (group m 2)
    | None, None =>
        emit (Error ("Cannot parse URL: " +:+ url));;
        emit (Error "Expected: git@host:path.git or https://host/path.git");;
        exit 1
    end;
  let segments := Str.split "/" repoPath in
  let org := default "" (head segments) in
  let projectPath := Str.join "/" (drop 1 segments) in
  mret (Parsed org projectPath).

(** ** Links and commands *)

(** The two commands handed to git, and the outcome of reconciling a link
    (the strings ["exists"], ["created"] and ["failed"]). *)
Inductive git_cmd :=
| GitPull (dir : path)                   (* [git -C "<dir>" pull] *)
| GitClone (url : string) (dest : path). (* [git clone "<url>" "<dest>"] *)

Inductive link_status := exists_ | created | failed.

#[global] Instance link_status_eq_dec : EqDecision link_status.
Proof. solve_decision. Defined.

(** The double quote and the line feed. *)
Definition dq : string := String "034"%char "".
Definition nl : string := String "010"%char "".

Section Vault.

(** [__dirname], [process.platform], and the external commands: what
    running git, and what running a command line (the look-up of a tool, an
    installer), does to the file system, together with whether it
    succeeded.  A command that never returns is outside the model. *)
Variable VAULT_ROOT : path.
Variable platform : string.
Variable git : git_cmd → FS → bool * FS.
Variable shell : string → FS → bool * FS.

Definition ENV_FILE : path := Path.join VAULT_ROOT ".env".

Definition win32 : bool := bool_decide (platform = "win32").

Definition LINK_TYPE : string := if win32 then "junction" else "symlink".

(** One line of the loop of [loadEnv].  Assigning to the key [__proto__]
    of a plain object stores nothing. *)
Definition env_line (env : gmap string string) (line : string) : gmap string string :=
  let trimmed := Str.trim line in
  if bool_decide (trimmed = "") || Str.startsWith "#" trimmed then env
  else match Str.index_of "=" trimmed with
       | None => env
       | Some eq =>
           let key := Str.trim (Str.take eq trimmed) in
           let value := Str.trim (Str.drop (S eq) trimmed) in
           if bool_decide (key = "__proto__") then env else <[key := value]> env
       end.

(** The object that [loadEnv] builds from the text of the file. *)
Definition parse_env (text : string) : gmap string string :=
  foldl env_line ∅ (Str.split "010" text).

Definition loadEnv : M (gmap string string) :=
  fs ← get_fs;
  if negb (existsSync fs ENV_FILE) then
    emit (Error (".env not found: " +:+ Path.show ENV_FILE));;
    emit (Error "Copy .env.example to .env and adjust the paths.");;
    exit 1
  else
    match readFileSync fs ENV_FILE with
    | Some text => mret (parse_env text)
    | None => λ w, (Throw "readFileSync", w)
    end.

(** [getSrcDirs(env)]: a missing and an empty [SOURCES] are both falsy. *)
Definition getSrcDirs (env : gmap string string) : M (list path) :=
  match env !! "SOURCES" with
  | Some sources =>
      if bool_decide (sources = "") then
        emit (Error "SOURCES not defined in .env.");; exit 1
      else
        mret (map (λ s, Path.resolve VAULT_ROOT (Str.trim s)) (Str.split "," sources))
  | None => emit (Error "SOURCES not defined in .env.");; exit 1
  end.

(** [execSync(cmd)] of a command line: what the command did to the file
    system stays, whether it succeeded or not; a failure is an exception. *)
Definition execSync (cmd : string) : M unit :=
  λ w, let '(ok, fs') := shell cmd (w_fs w) in
       if (ok : bool) then (Return (), World fs' (w_out w))
       else (Throw "execSync", World fs' (w_out w)).

(** [hasCommand(name)]: the look-up either succeeds or throws. *)
Definition hasCommand (name : string) : M bool :=
  try_catch
    (execSync ((if win32 then "where " else "which ") +:+ name);; mret true)
    (mret false).

Definition tools : list (string * option string) :=
  [("git", None);
   ("marp", Some "npm install -g @marp-team/marp-cli");
   ("pandoc", Some "winget install --id JohnMacFarlane.Pandoc -e")].

(** The body of the loop of [ensureTools], for one tool. *)
Definition ensure_tool (_ : unit) (tool : string * option string) : M unit :=
  let '(cmd, install) := tool in
  present ← hasCommand cmd;
  if (present : bool) then mret ()
  else match install with
       | None =>
           emit (Error (cmd +:+ " not found. Please install it manually."));;
           exit 1
       | Some install =>
           emit (Log (cmd +:+ " not found — installing..."));;
           try_catch
             (execSync install;;
              emit (Log (cmd +:+ " installed.")))
             (emit (Error (cmd +:+ " installation failed. Manual: " +:+ install));;
              exit 1)
       end.

Definition ensureTools : M unit := for_of tools () ensure_tool.

(** [gitExec(cmd)]: git prints for itself; a failure becomes [false]. *)
Definition gitExec (cmd : git_cmd) : M bool :=
  λ w, let '(ok, fs') := git cmd (w_fs w) in (Return ok, World fs' (w_out w)).

Definition ensureLink (linkPath targetPath : path) : M link_status :=
  fs ← get_fs;
  if existsSync fs linkPath then mret exists_
  else
    fs_try "mkdirSync" (λ fs, mkdirSync_recursive fs (Path.dirname linkPath));;
    try_catch
      ((if win32
        then fs_update "execSync" (λ fs, symlinkSync fs targetPath linkPath)
        else fs_update "symlinkSync" (λ fs, symlinkSync fs targetPath linkPath));;
       mret created)
      (mret failed).

(** The body of the second loop of [cmdPull], for one repository. *)
Definition pull_one (created_n : nat) (r : path * path) : M nat :=
  let '(repoPath, srcDir) := r in
  let relative := Path.relative srcDir repoPath in
  let linkPath := Path.join VAULT_ROOT relative in
  emit (Stdout ("  " +:+ relative +:+ " ... "));;
  ok ← gitExec (GitPull repoPath);
  (if negb ok then emit (Warn "  Pull failed.") else mret ());;
  status ← ensureLink linkPath repoPath;
  if decide (status = created) then
    emit (Log ("  " +:+ LINK_TYPE +:+ " created."));;
    mret (S created_n)
  else mret created_n.

(** The body of the first loop of [cmdPull], for one source root. *)
Definition collect (allRepos : list (path * path)) (srcDir : path)
    : M (list (path * path)) :=
  fs ← get_fs;
  match findGitRepos fs srcDir with
  | Some repos => mret (allRepos ++ map (λ repoPath, (repoPath, srcDir)) repos)
  | None => λ w, (Diverge, w)
  end.

(** [cmdPull] from its third line on, with the list [srcDirs] that
    [getSrcDirs(loadEnv())] returned. *)
Definition cmdPull_with (srcDirs : list path) : M unit :=
  emit (Log "=== Pulling vault ===");;
  gitExec (GitPull VAULT_ROOT);;
  emit (Log "");;
  allRepos ← for_of srcDirs [] collect;
  if decide (length allRepos = 0) then
    emit (Log ("No repos found under: " +:+ Str.join ", " (map Path.show srcDirs)))
  else
    created_n ← for_of allRepos 0 pull_one;
    emit (Log "");;
    emit (Log (Str.of_nat (length allRepos) +:+ " repos pulled" +:+
               (if decide (0 < created_n)
                then ", " +:+ Str.of_nat created_n +:+ " " +:+ LINK_TYPE +:+ "s created"
                else "") +:+ ".")).

(** [linkOverride || projectPath]: [null], [undefined] and the empty string
    are falsy. *)
Definition or_else (linkOverride : option string) (projectPath : string) : string :=
  match linkOverride with
  | Some s => if decide (s = "") then projectPath else s
  | None => projectPath
  end.

Definition cmdPull : M unit :=
  env ← loadEnv;
  srcDirs ← getSrcDirs env;
  cmdPull_with srcDirs.

(** [cmdAdd] from its third line on, with the list [srcDirs] that
    [getSrcDirs(loadEnv())] returned; [linkOverride] is [None] for [null]
    and [undefined]. *)
Definition cmdAdd_with (srcDirs : list path) (url : string)
    (linkOverride : option string) : M unit :=
  parsed ← parseGitUrl url;
  cloneBase ← match head srcDirs with
              | Some b => mret b
              | None => λ w, (Throw "path.join", w)
              end;
  let clonePath := Path.join cloneBase (projectPath parsed) in
  let vaultLink := or_else linkOverride (projectPath parsed) in
  emit (Log "");;
  emit (Log ("  Git URL:     " +:+ url));;
  emit (Log ("  Project:     " +:+ projectPath parsed));;
  emit (Log ("  Clone to:    " +:+ Path.show clonePath));;
  emit (Log ("  Vault link:  " +:+ vaultLink));;
  emit (Log "");;
  fs ← get_fs;
  (if existsSync fs clonePath then
     emit (Log "Repo exists — pulling...");;
     gitExec (GitPull clonePath);;
     mret ()
   else
     emit (Log "Cloning...");;
     fs_try "mkdirSync" (λ fs, mkdirSync_recursive fs (Path.dirname clonePath));;
     ok ← gitExec (GitClone url clonePath);
     if negb ok then emit (Error "Clone failed!");; exit 1 else mret ());;
  let linkAbsolute := Path.join VAULT_ROOT vaultLink in
  status ← ensureLink linkAbsolute clonePath;
  (if decide (status = created) then emit (Log (LINK_TYPE +:+ " created."))
   else if decide (status = exists_) then emit (Log (LINK_TYPE +:+ " already exists."))
   else
     emit (Error (LINK_TYPE +:+ " failed! Create manually:"));;
     (if win32
      then emit (Error ("  mklink /J " +:+ dq +:+ Path.show linkAbsolute +:+ dq +:+
                        " " +:+ dq +:+ Path.show clonePath +:+ dq))
      else emit (Error ("  ln -s " +:+ dq +:+ Path.show clonePath +:+ dq +:+
                        " " +:+ dq +:+ Path.show linkAbsolute +:+ dq)));;
     exit 1);;
  emit (Log "");;
  emit (Log ("Done: " +:+ Path.show linkAbsolute)).

Definition cmdAdd (url : string) (linkOverride : option string) : M unit :=
  env ← loadEnv;
  srcDirs ← getSrcDirs env;
  cmdAdd_with srcDirs url linkOverride.

(** The counters [ok], [missing] and [total] of [cmdStatus]. *)
Record tally := Tally { t_ok : nat; t_missing : nat; t_total : nat }.

(** The body of the inner loop of [cmdStatus], for one repository. *)
Definition status_one (srcDir : path) (t : tally) (repoPath : path) : M tally :=
  let relative := Path.relative srcDir repoPath in
  let linkPath := Path.join VAULT_ROOT relative in
  fs ← get_fs;
  let linked := existsSync fs linkPath in
  emit (Log ("  " +:+ (if linked then "OK" else "--") +:+ "  " +:+ relative));;
  mret (if linked
        then Tally (S (t_ok t)) (t_missing t) (S (t_total t))
        else Tally (t_ok t) (S (t_missing t)) (S (t_total t))).

(** The body of the outer loop of [cmdStatus], for one source root. *)
Definition status_root (t : tally) (srcDir : path) : M tally :=
  fs ← get_fs;
  match findGitRepos fs srcDir with
  | Some repos => for_of repos t (status_one srcDir)
  | None => λ w, (Diverge, w)
  end.

(** [cmdStatus] from its third line on. *)
Definition cmdStatus_with (srcDirs : list path) : M unit :=
  emit (Log "");;
  emit (Log ("Sources: " +:+ Str.join ", " (map Path.show srcDirs)));;
  emit (Log "");;
  t ← for_of srcDirs (Tally 0 0 0) status_root;
  emit (Log "");;
  emit (Log (Str.of_nat (t_total t) +:+ " repos (" +:+ Str.of_nat (t_ok t) +:+
             " linked, " +:+ Str.of_nat (t_missing t) +:+ " without " +:+
             LINK_TYPE +:+ ").")).

Definition cmdStatus : M unit :=
  env ← loadEnv;
  srcDirs ← getSrcDirs env;
  cmdStatus_with srcDirs.

(** The usage text. *)
Definition usage : M unit :=
  emit (Log ("vault.js — Manage the Knowledge Vault" +:+ nl));;
  emit (Log "  node vault.js pull                  Pull repos + create links");;
  emit (Log "  node vault.js add <git-url>         Clone a new project + link it");;
  emit (Log "  node vault.js add <url> --link <p>  With explicit vault path");;
  emit (Log ("  node vault.js status                Show status of all repos" +:+ nl));;
  emit (Log ".env:");;
  emit (Log "  SOURCES=C:\path\to\repos");;
  emit (Log "  TEMPLATES=path/to/templates");;
  emit (Log "  ASSETS=path/to/assets").

(** JavaScript truthiness of an optional string. *)
Definition truthy (x : option string) : bool :=
  match x with
  | Some s => negb (bool_decide (s = ""))
  | None => false
  end.

(** The command line: [args] is [process.argv.slice(2)]. *)
Definition main (args : list string) : M unit :=
  let command := args !! 0 in
  if negb (truthy command) || bool_decide (command = Some "--help")
     || bool_decide (command = Some "-h")
  then usage;; exit 0
  else
    ensureTools;;
    if bool_decide (command = Some "pull") then cmdPull
    else if bool_decide (command = Some "add") then
      let url := args !! 1 in
      if negb (truthy url) then emit (Error "Missing: Git URL");; exit 1
      else
        let li := fst <$> list_find (λ a, a = "--link") args in
        cmdAdd (default "" url)
               (match li with Some i => args !! (S i) | None => None end)
    else if bool_decide (command = Some "status") then cmdStatus
    else
      emit (Error ("Unknown: " +:+ default "" command +:+ " (--help for help)"));;
      exit 1.

End Vault.

(** ** Identifier shapes

    The two shapes of identifier that the parser recognises, and the part
    of its work that both patterns share. *)

(** [git@host:body] *)
Definition ssh_url (host body : string) : string := "git@" +:+ host +:+ ":" +:+ body.

(** [scheme://host/body], for the schemes [http] and [https]. *)
Definition web_url (scheme host body : string) : string :=
  scheme +:+ "://" +:+ host +:+ "/" +:+ body.

Definition web_scheme (scheme : string) : bool :=
  bool_decide (scheme = "http" ∨ scheme = "https").

(** [https://host/body] *)
Definition https_url (host body : string) : string := web_url "https" host body.

(** What the patterns allow after the repository path: [.git] or nothing. *)
Definition tail_ok (rest : string) : bool :=
  bool_decide (rest = ".git" ∨ rest = "").

(** The second group of either pattern on the text [body] that follows the
    host: [(.+?)(?:\.git)?$]. *)
Definition repo_of (body : string) : option string :=
  Regex.plus_lazy Regex.Any body (λ mt rest, if tail_ok rest then Some mt else None).

(** Lines 164 to 168: the organisation and the project path of a
    repository path. *)
Definition segments_of (repoPath : string) : parsed :=
  Parsed (default "" (head (Str.split "/" repoPath)))
         (Str.join "/" (drop 1 (Str.split "/" repoPath))).

(** [s] is a non-empty text followed by [.git]. *)
Fixpoint has_git_suffix (s : string) : bool :=
  match s with
  | EmptyString => false
  | String _ s' => bool_decide (s' = ".git") || has_git_suffix s'
  end.

(** ** Vocabulary of the properties of discovery and linking *)

(** The test of line 126: [d] holds a [.git] that [existsSync] sees. *)
Definition marker (fs : FS) (d : path) : bool := existsSync fs (d ++ [".git"]).

(** A name that the walk descends into: not hidden, not the dependency
    cache. *)
Definition ok_name (nm : string) : Prop :=
  Str.startsWith "." nm = false ∧ nm ≠ "node_modules".

(** No path of [l] is a proper ancestor of another. *)
Definition antichain (l : list path) : Prop :=
  ∀ a b, a ∈ l → b ∈ l → a `prefix_of` b → a = b.

(** [reach fs d0 d]: the walk started at [d0] calls itself on [d]. *)
Inductive reach (fs : FS) : path → path → Prop :=
| reach_here d : reach fs d d
| reach_down d0 es e d :
    existsSync fs (d0 ++ [".git"]) = false →
    readdirSync fs d0 = Some es →
    e ∈ es → descend e = true →
    reach fs (d0 ++ [name e]) d →
    reach fs d0 d.

(** What one call of the walk at [d] may add to the result. *)
Definition found (fs : FS) (d : path) (new : list path) : Prop :=
  NoDup new ∧ antichain new ∧
  ∀ r, r ∈ new → ∃ s, r = d ++ s ∧ Forall ok_name s ∧ marker fs r = true.

(** A link to [target] sits at [link]. *)
Definition link_at (fs : FS) (link target : path) : Prop :=
  ∃ c nm, link = Path.dirname link ++ [nm] ∧
    resolve fs (Path.dirname link) = Some c ∧
    fs !! (c ++ [nm]) = Some (Symlink target).

(** ** Sample worlds for the examples *)

Module Sample.

Definition dir : inode := Dir rwx.

(** Git always succeeds and changes nothing. *)
Definition git_ok : git_cmd → FS → bool * FS := λ _ fs, (true, fs).

(** Scenario A of the specification, beside an empty vault. *)
Definition fs_scenario : FS :=
  list_to_map
    [([], dir); (["src"], dir);
     (["src"; "repoA"], dir); (["src"; "repoA"; ".git"], dir);
     (["src"; "group"], dir); (["src"; "group"; "repoB"], dir);
     (["src"; "group"; "repoB"; ".git"], File "gitdir: ../../.git/modules/repoB");
     (["src"; "node_modules"], dir); (["src"; "node_modules"; "hidden"], dir);
     (["src"; "node_modules"; "hidden"; ".git"], dir);
     (["vault"], dir)].

(** A regular file [group] lies in the vault where a directory is needed. *)
Definition fs_blocked : FS := <[["vault"; "group"] := File "notes"]> fs_scenario.

(** A link whose target is gone lies in the vault at [repoA]. *)
Definition fs_stale : FS := <[["vault"; "repoA"] := Symlink ["gone"]]> fs_scenario.

(** A repository below a hidden directory. *)
Definition fs_hidden : FS :=
  list_to_map
    [([], dir); (["src"], dir); (["src"; ".cfg"], dir);
     (["src"; ".cfg"; "r"], dir); (["src"; ".cfg"; "r"; ".git"], dir)].

(** A repository whose directory may be searched but not listed. *)
Definition fs_locked : FS :=
  list_to_map
    [([], dir); (["src"], dir);
     (["src"; "locked"], Dir (Perm false false true));
     (["src"; "locked"; ".git"], dir)].

(** A directory whose [.git] is a link to nowhere, with a repository below. *)
Definition fs_dangling : FS :=
  list_to_map
    [([], dir); (["src"], dir); (["src"; "dang"], dir);
     (["src"; "dang"; ".git"], Symlink ["nowhere"]);
     (["src"; "dang"; "sub"], dir); (["src"; "dang"; "sub"; ".git"], dir)].

(** Git succeeds; a clone creates the working copy. *)
Definition git_clones : git_cmd → FS → bool * FS := λ c fs,
  match c with
  | GitClone _ dest =>
      (true, <[Path.strip dest ++ [".git"] := dir]> (<[Path.strip dest := dir]> fs))
  | GitPull _ => (true, fs)
  end.

(** A directory that may be neither listed nor searched. *)
Definition fs_secret : FS :=
  list_to_map
    [([], dir); (["src"], dir);
     (["src"; "secret"], Dir (Perm false false false));
     (["src"; "secret"; "r"], dir); (["src"; "secret"; "r"; ".git"], dir);
     (["src"; "repoA"], dir); (["src"; "repoA"; ".git"], dir)].

End Sample.

(** ** Vocabulary of the further properties *)

(** What [parseGitUrl] prints before it gives up. *)
Definition parse_error (url : string) : list event :=
  [Error ("Cannot parse URL: " +:+ url);
   Error "Expected: git@host:path.git or https://host/path.git"].

(** Only white space, as [trim] removes it. *)
Definition all_space (s : string) : bool := Str.free_of (λ a, negb (Str.is_space a)) s.

(** A string with no white space at either end. *)
Definition tight (s : string) : Prop := Str.trim s = s.

(** A string that holds no line feed. *)
Definition one_line (s : string) : bool := Str.free_of (Ascii.eqb "010") s.

(** An assignment line of [.env]: key [k] and value [v], with padding. *)
Definition assignment (p1 k p2 p3 v p4 : string) : string :=
  p1 +:+ k +:+ p2 +:+ "=" +:+ p3 +:+ v +:+ p4.


(** What [loadEnv] and [getSrcDirs] print before they give up. *)
Definition env_missing (VAULT_ROOT : path) : list event :=
  [Error (".env not found: " +:+ Path.show (ENV_FILE VAULT_ROOT));
   Error "Copy .env.example to .env and adjust the paths."].

Definition sources_missing : list event := [Error "SOURCES not defined in .env."].

(** The source roots that [getSrcDirs(loadEnv())] returns, when [.env] can
    be read and gives [SOURCES] a value. *)
Definition configured (VAULT_ROOT : path) (fs : FS) : option (list path) :=
  text ← readFileSync fs (ENV_FILE VAULT_ROOT);
  s ← parse_env text !! "SOURCES";
  if bool_decide (s = "") then None
  else Some (map (λ s, Path.resolve VAULT_ROOT (Str.trim s)) (Str.split "," s)).

(** A completion that is a normal end, an exit whose code satisfies [E], or
    an exception whose origin satisfies [P]; never a lack of fuel. *)
Definition tame {A : Type} (P : string → Prop) (E : nat → Prop)
    (r : completion A) : Prop :=
  match r with
  | Return _ => True
  | Throw o => P o
  | Exit c => E c
  | Diverge => False
  end.

Definition safe {A : Type} (P : string → Prop) (E : nat → Prop) (m : M A) : Prop :=
  ∀ w, tame P E (m w).1.

(** The exceptions that no handler of the program catches. *)
Definition escaping (o : string) : Prop := o = "readFileSync" ∨ o = "mkdirSync".

(** The test of line 296 on the command line. *)
Definition wants_help (args : list string) : bool :=
  negb (truthy (args !! 0)) || bool_decide (args !! 0 = Some "--help")
  || bool_decide (args !! 0 = Some "-h").



(** The repositories found under each source root in turn, each with its
    root. *)
Definition discovered (fs : FS) (srcDirs : list path) : list (path * path) :=
  srcDir ← srcDirs; pair srcDir <$> default [] (findGitRepos fs srcDir).

(** Whether the vault holds something at the place of the repository [r.2]
    of the source root [r.1]. *)
Definition linked (VAULT_ROOT : path) (fs : FS) (r : path * path) : bool :=
  existsSync fs (Path.join VAULT_ROOT (Path.relative r.1 r.2)).

Definition n_linked (VAULT_ROOT : path) (fs : FS) (l : list (path * path)) : nat :=
  length (filter (λ r, linked VAULT_ROOT fs r = true) l).

(** The line of [cmdStatus] for one repository. *)
Definition status_line (VAULT_ROOT : path) (fs : FS) (r : path * path) : event :=
  Log ("  " +:+ (if linked VAULT_ROOT fs r then "OK" else "--") +:+ "  " +:+
       Path.relative r.1 r.2).

(** What [cmdStatus] prints for the source roots [srcDirs]. *)
Definition status_report (VAULT_ROOT : path) (platform : string) (fs : FS)
    (srcDirs : list path) : list event :=
  let all := discovered fs srcDirs in
  [Log ""; Log ("Sources: " +:+ Str.join ", " (map Path.show srcDirs)); Log ""] ++
  map (status_line VAULT_ROOT fs) all ++
  [Log "";
   Log (Str.of_nat (length all) +:+ " repos (" +:+
        Str.of_nat (n_linked VAULT_ROOT fs all) +:+ " linked, " +:+
        Str.of_nat (length all - n_linked VAULT_ROOT fs all) +:+ " without " +:+
        LINK_TYPE platform +:+ ").")].

(** The counters of [cmdStatus] after the repositories [l]. *)
Definition bump (VAULT_ROOT : path) (t : tally) (fs : FS) (l : list (path * path))
    : tally :=
  Tally (t_ok t + n_linked VAULT_ROOT fs l)
        (t_missing t + (length l - n_linked VAULT_ROOT fs l))
        (t_total t + length l).

(** What [cmdPull] prints before it looks for repositories, when it finds
    none, and at its end for [total] repositories and [n] new links. *)
Definition pull_banner : list event := [Log "=== Pulling vault ==="; Log ""].

Definition nothing_found (srcDirs : list path) : event :=
  Log ("No repos found under: " +:+ Str.join ", " (map Path.show srcDirs)).

Definition pull_summary (platform : string) (total n : nat) : event :=
  Log (Str.of_nat total +:+ " repos pulled" +:+
       (if decide (0 < n)
        then ", " +:+ Str.of_nat n +:+ " " +:+ LINK_TYPE platform +:+ "s created"
        else "") +:+ ".").

(** What [cmdAdd] prints before it clones or pulls. *)
Definition add_header (url projectPath : string) (clonePath : path)
    (vaultLink : string) : list event :=
  [Log ""; Log ("  Git URL:     " +:+ url); Log ("  Project:     " +:+ projectPath);
   Log ("  Clone to:    " +:+ Path.show clonePath);
   Log ("  Vault link:  " +:+ vaultLink); Log ""].

(** ** Sample worlds with a configuration *)

Module SampleConfig.

(** Scenario A with a [.env] in the vault that names [/src]. *)
Definition fs_configured : FS :=
  <[["vault"; ".env"] := File ("# roots" +:+ nl +:+ "SOURCES = /src" +:+ nl)]>
    Sample.fs_scenario.

(** Git fails and changes nothing. *)
Definition git_down : git_cmd → FS → bool * FS := λ _ fs, (false, fs).

End SampleConfig.

(** ** Sample worlds for the links *)

Module SampleLinks.




(** Six repositories under [/s], entered in no particular order. *)
Definition fs_six : FS :=
  list_to_map
    [([], Sample.dir); (["s"], Sample.dir);
     (["s"; "f"], Sample.dir); (["s"; "f"; ".git"], Sample.dir);
     (["s"; "a"], Sample.dir); (["s"; "a"; ".git"], Sample.dir);
     (["s"; "e"], Sample.dir); (["s"; "e"; ".git"], Sample.dir);
     (["s"; "B"], Sample.dir); (["s"; "B"; ".git"], Sample.dir);
     (["s"; "c"], Sample.dir); (["s"; "c"; ".git"], Sample.dir);
     (["s"; "d"], Sample.dir); (["s"; "d"; ".git"], Sample.dir)].

End SampleLinks.

(** ** Properties of strings *)

Module StrFacts.

Lemma app_cons (a : ascii) (s t : string) : String a s +:+ t = String a (s +:+ t).
Proof. reflexivity. Qed.

Lemma app_nil_l (s : string) : "" +:+ s = s.
Proof. reflexivity. Qed.

Lemma app_nil_r (s : string) : s +:+ "" = s.
Proof. induction s as [|a s IH]; [done | by rewrite app_cons, IH]. Qed.

Lemma app_assoc (s t u : string) : (s +:+ t) +:+ u = s +:+ (t +:+ u).
Proof. induction s as [|a s IH]; [done | by rewrite !app_cons, IH]. Qed.

Lemma app_length (s t : string) :
  String.length (s +:+ t) = String.length s + String.length t.
Proof. induction s as [|a s IH]; [done | rewrite app_cons; simpl; by rewrite IH]. Qed.

Lemma app_empty (s t : string) : s +:+ t = "" → s = "" ∧ t = "".
Proof. destruct s; [done | rewrite app_cons; discriminate]. Qed.

Lemma app_cancel_l (s t : string) : s +:+ t = t → s = "".
Proof.
  intros H. apply (f_equal String.length) in H. rewrite app_length in H.
  destruct s; [done | simpl in H; lia].
Qed.

Lemma eqb_false (a b : ascii) : a ≠ b → Ascii.eqb a b = false.
Proof. intros H. by apply Ascii.eqb_neq. Qed.

(** Splitting a string that holds no separator gives the string itself. *)
Lemma split_free (sep : ascii) (s : string) :
  Str.free_of (Ascii.eqb sep) s = true → Str.split sep s = [s].
Proof.
  induction s as [|a s IH]; simpl; [done |].
  intros [Ha Hs]%andb_prop. rewrite (IH Hs).
  rewrite Ascii.eqb_sym. by destruct (Ascii.eqb sep a).
Qed.

(** The first separator ends the first segment. *)
Lemma split_first (sep : ascii) (s t : string) :
  Str.free_of (Ascii.eqb sep) s = true →
  Str.split sep (s +:+ String sep t) = s :: Str.split sep t.
Proof.
  induction s as [|a s IH]; intros H.
  - rewrite app_nil_l. simpl. by rewrite Ascii.eqb_refl.
  - simpl in H. apply andb_prop in H as [Ha Hs].
    rewrite app_cons. simpl. rewrite (IH Hs).
    rewrite Ascii.eqb_sym. by destruct (Ascii.eqb sep a).
Qed.

Lemma split_nonempty (sep : ascii) (s : string) : Str.split sep s ≠ [].
Proof.
  destruct s as [|a s]; simpl; [done |].
  destruct (Ascii.eqb a sep); [done |]. by destruct (Str.split sep s).
Qed.

Lemma join_cons (sep x y : string) (l : list string) :
  Str.join sep (x :: y :: l) = x +:+ sep +:+ Str.join sep (y :: l).
Proof. reflexivity. Qed.

(** Joining the segments of a string gives the string back. *)
Lemma join_split (sep : ascii) (s : string) :
  Str.join (String sep "") (Str.split sep s) = s.
Proof.
  induction s as [|a s IH]; simpl; [done |].
  pose proof (split_nonempty sep s) as Hn.
  destruct (Ascii.eqb_spec a sep) as [->|Hne];
    destruct (Str.split sep s) as [|h t]; try done.
  - by rewrite join_cons, IH.
  - destruct t as [|h' t].
    + unfold Str.join in *. simpl in *. by rewrite IH.
    + rewrite join_cons in *. by rewrite app_cons, IH.
Qed.

End StrFacts.

(** ** Properties of the matcher and of the parser *)

Module ParseFacts.
Import Regex StrFacts.

Lemma strip_app (l s : string) : strip l (l +:+ s) = Some s.
Proof.
  induction l as [|a l IH]; [done |].
  rewrite app_cons. simpl. by rewrite Ascii.eqb_refl.
Qed.

Lemma strip_Some (l s r : string) : strip l s = Some r → s = l +:+ r.
Proof.
  revert s. induction l as [|a l IH]; intros s; simpl.
  - by intros [= ->].
  - destruct s as [|b s]; [done |].
    destruct (Ascii.eqb_spec a b) as [->|]; [| done].
    intros H%IH. by rewrite app_cons, H.
Qed.

Lemma run_Lit (l s : string) caps (κ : cont) :
  run (Lit l) (l +:+ s) caps κ = κ l s caps.
Proof. simpl. by rewrite strip_app. Qed.

Lemma run_Seq r1 r2 s caps (κ : cont) :
  run (Seq r1 r2) s caps κ =
  run r1 s caps (λ m1 s1 c1, run r2 s1 c1 (λ m2 s2 c2, κ (m1 +:+ m2) s2 c2)).
Proof. reflexivity. Qed.

Lemma plus_lazy_ext {A} k s (κ1 κ2 : string → string → option A) :
  (∀ mt rest, κ1 mt rest = κ2 mt rest) →
  plus_lazy k s κ1 = plus_lazy k s κ2.
Proof.
  revert κ1 κ2. induction s as [|a s IH]; intros κ1 κ2 H; simpl; [done |].
  rewrite H. destruct (cls_test k a); [| done].
  destruct (κ2 (String a "") s); [done |]. apply IH. intros; apply H.
Qed.

(** A greedy run of [[^c]] in front of the first [c] takes everything up to
    it when what follows the run in the pattern starts with [c]. *)
Lemma plus_greedy_upto {A} (c : ascii) (h rest : string)
    (κ : string → string → option A) :
  h ≠ "" → Str.free_of (Ascii.eqb c) h = true →
  (∀ mt a t, a ≠ c → κ mt (String a t) = None) →
  plus_greedy (Not c) (h +:+ String c rest) κ = κ h (String c rest).
Proof.
  revert κ. induction h as [|a h IH]; intros κ Hne Hfree Hκ; [done |].
  simpl in Hfree. apply andb_prop in Hfree as [Ha Hh].
  rewrite app_cons. simpl. rewrite Ascii.eqb_sym, Ha.
  destruct h as [|b h].
  - rewrite app_nil_l. simpl. by rewrite Ascii.eqb_refl.
  - rewrite (IH (λ mt r, κ (String a mt) r)); [| done | done | intros; by apply Hκ].
    destruct (κ (String a (String b h)) (String c rest)) eqn:E; [done |].
    rewrite app_cons. apply Hκ. simpl in Hh. apply andb_prop in Hh as [Hb _].
    intros ->. by rewrite Ascii.eqb_refl in Hb.
Qed.


Lemma run_Eos (s : string) caps (κ : cont) :
  run Eos s caps κ = if decide (s = "") then κ "" "" caps else None.
Proof. by destruct s. Qed.

Lemma run_tail (rest : string) caps (κ : cont) :
  run (seq [Opt (Lit ".git"); Eos]) rest caps κ =
  if tail_ok rest then κ rest "" caps else None.
Proof.
  unfold seq, tail_ok. cbn [foldr]. rewrite run_Seq. cbn [run].
  destruct (strip ".git" rest) as [r|] eqn:E.
  - apply strip_Some in E as ->. destruct r as [|a r].
    + rewrite ?app_nil_r, ?app_nil_l. rewrite bool_decide_eq_true_2 by (by left).
      cbn [strip]. by destruct (κ ".git" "" caps).
    + rewrite bool_decide_eq_false_2; [done |].
      intros [H|H]; by apply (f_equal String.length) in H.
  - destruct rest as [|a rest].
    + by rewrite bool_decide_eq_true_2 by (by right).
    + rewrite bool_decide_eq_false_2; [done |].
      intros [H|H]; [| done]. by rewrite H in E.
Qed.

Ltac seq_step := change (seq (?a :: ?l)) with (Seq a (seq l)); rewrite run_Seq.

Lemma exec_ssh (host body : string) :
  host ≠ "" → Str.free_of (Ascii.eqb ":") host = true →
  exec sshRe (ssh_url host body) =
  plus_lazy Any body (λ mt rest,
    if tail_ok rest then Some [ssh_url host (mt +:+ rest); host; mt] else None).
Proof.
  intros Hne Hfree. unfold exec, sshRe, ssh_url.
  seq_step. rewrite run_Lit. seq_step. cbn [run].
  change (":" +:+ body) with (String ":" body).
  rewrite plus_greedy_upto; [| done | done |].
  2:{ intros mt a t Ha. seq_step. cbn [run strip].
      by rewrite (eqb_false ":" a) by congruence. }
  seq_step. change (String ":" body) with (":" +:+ body). rewrite run_Lit.
  seq_step. cbn [run].
  apply plus_lazy_ext. intros mt rest.
  rewrite run_tail. by destruct (tail_ok rest).
Qed.

Lemma exec_web (scheme host body : string) :
  web_scheme scheme = true →
  host ≠ "" → Str.free_of (Ascii.eqb "/") host = true →
  exec httpsRe (web_url scheme host body) =
  plus_lazy Any body (λ mt rest,
    if tail_ok rest then Some [web_url scheme host (mt +:+ rest); host; mt] else None).
Proof.
  intros Hs Hne Hfree. unfold exec, httpsRe, web_url.
  assert (∀ caps (κ : cont),
    run (seq [Group (Plus (Not "/")); Lit "/"; Group (LazyPlus Any);
              Opt (Lit ".git"); Eos]) (host +:+ "/" +:+ body) caps κ =
    plus_lazy Any body (λ mt rest,
      if tail_ok rest
      then κ (host +:+ "/" +:+ mt +:+ rest) "" ((caps ++ [host]) ++ [mt])
      else None)) as Hrest.
  { intros caps κ. seq_step. cbn [run].
    change ("/" +:+ body) with (String "/" body).
    rewrite plus_greedy_upto; [| done | done |].
    2:{ intros mt a t Ha. seq_step. cbn [run strip].
        by rewrite (eqb_false "/" a) by congruence. }
    seq_step. change (String "/" body) with ("/" +:+ body). rewrite run_Lit.
    seq_step. cbn [run].
    apply plus_lazy_ext. intros mt rest.
    rewrite run_tail. by destruct (tail_ok rest). }
  apply bool_decide_eq_true_1 in Hs as [-> | ->].
  - seq_step. rewrite run_Lit. seq_step. cbn [run].
    change (strip "s" ("://" +:+ ?x)) with (@None string).
    seq_step. rewrite run_Lit, Hrest. by apply plus_lazy_ext.
  - seq_step. change "https" with ("http" +:+ "s"). rewrite app_assoc, run_Lit.
    seq_step. cbn [run]. rewrite (strip_app "s").
    seq_step. rewrite run_Lit, Hrest.
    match goal with |- match ?X with _ => _ end = ?Y => assert (X = Y) as -> end.
    { by apply plus_lazy_ext. }
    by destruct (plus_lazy _ _ _).
Qed.

Lemma exec_ssh_web (scheme host body : string) :
  web_scheme scheme = true → exec sshRe (web_url scheme host body) = None.
Proof. by intros [-> | ->]%bool_decide_eq_true_1. Qed.

Lemma exec_https_ssh (host body : string) : exec httpsRe (ssh_url host body) = None.
Proof. reflexivity. Qed.

(** The lazy run of the repository path stops at the first place where
    what is left is nothing or [.git]. *)
Lemma plus_lazy_path {A} (p sfx : string) (F : string → string → A) :
  p ≠ "" → Str.free_of is_line_terminator p = true →
  tail_ok sfx = true →
  (sfx = "" → ∀ q, q ≠ "" → p ≠ q +:+ ".git") →
  plus_lazy Any (p +:+ sfx) (λ mt rest, if tail_ok rest then Some (F mt rest) else None)
  = Some (F p sfx).
Proof.
  revert F. induction p as [|a p IH]; intros F Hne Hlt Hsfx Hend; [done |].
  simpl in Hlt. apply andb_prop in Hlt as [Ha Hp].
  rewrite app_cons. cbn [plus_lazy cls_test]. rewrite Ha.
  destruct p as [|b p].
  - rewrite app_nil_l, Hsfx. done.
  - assert (tail_ok (String b p +:+ sfx) = false) as ->.
    { apply bool_decide_eq_false_2. intros [H|H].
      - apply bool_decide_eq_true_1 in Hsfx as [->| ->].
        + by apply app_cancel_l in H.
        + rewrite app_nil_r in H. apply (Hend eq_refl (String a "")); [done |].
          by rewrite H.
      - by apply app_empty in H as [? _]. }
    apply (IH (λ mt rest, F (String a mt) rest)); [done | done | done |].
    intros Hs q Hq Hq'. apply (Hend Hs (String a q)); [done |].
    by rewrite app_cons, Hq'.
Qed.

(** A line terminator in the path makes the whole match fail. *)
Lemma plus_lazy_line_terminator {A} (p sfx : string) (F : string → string → A) :
  Str.free_of is_line_terminator p = false →
  tail_ok sfx = true →
  plus_lazy Any (p +:+ sfx) (λ mt rest, if tail_ok rest then Some (F mt rest) else None)
  = None.
Proof.
  revert F. induction p as [|a p IH]; intros F Hlt Hsfx; [done |].
  simpl in Hlt. rewrite app_cons. cbn [plus_lazy cls_test].
  destruct (is_line_terminator a) eqn:Ha; [done |]. simpl in Hlt.
  assert (tail_ok (p +:+ sfx) = false) as ->.
  { apply bool_decide_eq_false_2.
    assert (∀ s, Str.free_of is_line_terminator s = false → s ≠ ".git" ∧ s ≠ "") as Hs.
    { intros s Hs. split; intros ->; done. }
    apply bool_decide_eq_true_1 in Hsfx as [->| ->].
    - intros [H|H].
      + apply app_cancel_l in H as ->. done.
      + apply app_empty in H as [-> _]. done.
    - rewrite app_nil_r. intros [H|H]; by apply Hs in Hlt as [??]. }
  apply (IH (λ mt rest, F (String a mt) rest)); done.
Qed.

Lemma plus_lazy_fmap {A B} (f : A → B) k s (κ : string → string → option A) :
  plus_lazy k s (λ mt rest, f <$> κ mt rest) = f <$> plus_lazy k s κ.
Proof.
  revert κ. induction s as [|a s IH]; intros κ; simpl; [done |].
  destruct (cls_test k a); [| done].
  destruct (κ (String a "") s); simpl; [done |].
  apply (IH (λ mt rest, κ (String a mt) rest)).
Qed.

Lemma exec_ssh_group (host body : string) :
  host ≠ "" → Str.free_of (Ascii.eqb ":") host = true →
  (λ m, group m 2) <$> exec sshRe (ssh_url host body) = repo_of body.
Proof.
  intros Hne Hfree. rewrite exec_ssh by done. rewrite <- plus_lazy_fmap.
  apply plus_lazy_ext. intros mt rest. by destruct (tail_ok rest).
Qed.

Lemma exec_web_group (scheme host body : string) :
  web_scheme scheme = true →
  host ≠ "" → Str.free_of (Ascii.eqb "/") host = true →
  (λ m, group m 2) <$> exec httpsRe (web_url scheme host body) = repo_of body.
Proof.
  intros Hs Hne Hfree. rewrite exec_web by done. rewrite <- plus_lazy_fmap.
  apply plus_lazy_ext. intros mt rest. by destruct (tail_ok rest).
Qed.

Lemma parse_ssh_some (host body rp : string) (w : world) :
  host ≠ "" → Str.free_of (Ascii.eqb ":") host = true →
  repo_of body = Some rp →
  parseGitUrl (ssh_url host body) w = (Return (segments_of rp), w).
Proof.
  intros Hne Hfree Hrp. rewrite <- (exec_ssh_group host) in Hrp by done.
  unfold parseGitUrl. destruct (exec sshRe _) as [m|]; [| done].
  simpl in Hrp. injection Hrp as <-. done.
Qed.

Lemma parse_ssh_none (host body : string) (w : world) :
  host ≠ "" → Str.free_of (Ascii.eqb ":") host = true →
  repo_of body = None →
  (parseGitUrl (ssh_url host body) w).1 = Exit 1.
Proof.
  intros Hne Hfree Hrp. rewrite <- (exec_ssh_group host) in Hrp by done.
  unfold parseGitUrl. rewrite exec_https_ssh.
  destruct (exec sshRe _) as [m|]; [done |]. done.
Qed.

Lemma parse_web_some (scheme host body rp : string) (w : world) :
  web_scheme scheme = true →
  host ≠ "" → Str.free_of (Ascii.eqb "/") host = true →
  repo_of body = Some rp →
  parseGitUrl (web_url scheme host body) w = (Return (segments_of rp), w).
Proof.
  intros Hs Hne Hfree Hrp. rewrite <- (exec_web_group scheme host) in Hrp by done.
  unfold parseGitUrl. rewrite exec_ssh_web by done.
  destruct (exec httpsRe _) as [m|]; [| done].
  simpl in Hrp. injection Hrp as <-. done.
Qed.

Lemma parse_web_none (scheme host body : string) (w : world) :
  web_scheme scheme = true →
  host ≠ "" → Str.free_of (Ascii.eqb "/") host = true →
  repo_of body = None →
  (parseGitUrl (web_url scheme host body) w).1 = Exit 1.
Proof.
  intros Hs Hne Hfree Hrp. rewrite <- (exec_web_group scheme host) in Hrp by done.
  unfold parseGitUrl. rewrite exec_ssh_web by done.
  destruct (exec httpsRe _) as [m|]; [done |]. done.
Qed.

Lemma repo_of_path (p sfx : string) :
  p ≠ "" → Str.free_of is_line_terminator p = true →
  tail_ok sfx = true →
  (sfx = "" → ∀ q, q ≠ "" → p ≠ q +:+ ".git") →
  repo_of (p +:+ sfx) = Some p.
Proof. intros. by apply (plus_lazy_path p sfx (λ mt _, mt)). Qed.

Lemma repo_of_line_terminator (p sfx : string) :
  Str.free_of is_line_terminator p = false → tail_ok sfx = true →
  repo_of (p +:+ sfx) = None.
Proof. intros. by apply (plus_lazy_line_terminator p sfx (λ mt _, mt)). Qed.

Lemma has_git_suffix_false (s : string) :
  has_git_suffix s = false → ∀ q, q ≠ "" → s ≠ q +:+ ".git".
Proof.
  induction s as [|a s IH]; intros H q Hq Hs.
  - by apply eq_sym, app_empty in Hs as [_ ?].
  - simpl in H. apply orb_false_elim in H as [H1 H2].
    apply bool_decide_eq_false_1 in H1.
    destruct q as [|b q]; [done |]. rewrite app_cons in Hs.
    injection Hs as -> Hs. destruct q as [|c q]; [done |].
    by apply (IH H2 (String c q)).
Qed.

Lemma has_git_suffix_true (s : string) :
  has_git_suffix s = true → ∃ q, q ≠ "" ∧ s = q +:+ ".git".
Proof.
  induction s as [|a s IH]; [done |]. simpl.
  intros [H|H]%orb_prop.
  - apply bool_decide_eq_true_1 in H as ->. by exists (String a "").
  - destruct (IH H) as (q & Hq & ->). by exists (String a q).
Qed.

Lemma segments_of_single (seg : string) :
  Str.free_of (Ascii.eqb "/") seg = true → segments_of seg = Parsed seg "".
Proof. intros H. unfold segments_of. by rewrite split_free. Qed.

Lemma segments_of_slash (o rest : string) :
  Str.free_of (Ascii.eqb "/") o = true →
  segments_of (o +:+ "/" +:+ rest) = Parsed o rest.
Proof.
  intros H. unfold segments_of.
  change ("/" +:+ rest) with (String "/" rest).
  rewrite split_first by done.
  change (drop 1 (o :: ?l)) with l. by rewrite (join_split "/").
Qed.

End ParseFacts.

(** ** Properties of the file system, of discovery and of linking *)

Module FsFacts.


#[local] Opaque SYMLOOP_MAX.

Lemma resolve_from_nil (n k : nat) (fs : FS) (cur : path) :
  resolve_from n fs k cur [] = Some (k, cur).
Proof. by destruct n. Qed.

Lemma resolve_from_cons (n k : nat) (fs : FS) (cur : path) seg rest :
  resolve_from n fs k cur (seg :: rest) =
  match fs !! cur with
  | Some (Dir pm) =>
      if bool_decide (seg = "") then resolve_from n fs k cur rest
      else if p_x pm then
        match fs !! (cur ++ [seg]) with
        | None => None
        | Some (Symlink t) =>
            match n with
            | O => None
            | S n' =>
                if bool_decide (k < SYMLOOP_MAX) then
                  match resolve_from n' fs (S k) [] t with
                  | Some (k', c) => resolve_from n fs k' c rest
                  | None => None
                  end
                else None
            end
        | Some _ => resolve_from n fs k (cur ++ [seg]) rest
        end
      else None
  | _ => None
  end.
Proof. by destruct n. Qed.

Lemma resolve_from_app (n k : nat) (fs : FS) (cur p q : path) :
  resolve_from n fs k cur (p ++ q) =
  resolve_from n fs k cur p ≫= λ r, resolve_from n fs r.1 r.2 q.
Proof.
  revert k cur. induction p as [|seg p IH]; intros k cur.
  - by rewrite resolve_from_nil.
  - rewrite <- app_comm_cons, !resolve_from_cons.
    destruct (fs !! cur) as [[|pm|]|]; try done.
    destruct (bool_decide (seg = "")); [apply IH |].
    destruct (p_x pm); [| done].
    destruct (fs !! (cur ++ [seg])) as [[|pm'|t]|]; try done.
    destruct n as [|n]; [done |].
    destruct (bool_decide (k < SYMLOOP_MAX)); [| done].
    destruct (resolve_from n fs (S k) [] t) as [[k' c]|]; [| done]. apply IH.
Qed.

Lemma resolve_from_weaken (n k : nat) (fs fs' : FS) (cur p : path) (r : nat * path) :
  fs ⊆ fs' → resolve_from n fs k cur p = Some r → resolve_from n fs' k cur p = Some r.
Proof.
  intros Hsub. revert k cur p r.
  induction n as [|n IHn]; intros k cur p; revert k cur;
    induction p as [|seg p IHp]; intros k cur r; rewrite ?resolve_from_nil; try done;
    rewrite !resolve_from_cons.
  - destruct (fs !! cur) as [[|pm|]|] eqn:E; try done.
    rewrite (lookup_weaken _ _ _ _ E Hsub).
    destruct (bool_decide (seg = "")); [apply IHp |].
    destruct (p_x pm); [| done].
    destruct (fs !! (cur ++ [seg])) as [i|] eqn:E'; [| done].
    rewrite (lookup_weaken _ _ _ _ E' Hsub).
    destruct i; try done; apply IHp.
  - destruct (fs !! cur) as [[|pm|]|] eqn:E; try done.
    rewrite (lookup_weaken _ _ _ _ E Hsub).
    destruct (bool_decide (seg = "")); [apply IHp |].
    destruct (p_x pm); [| done].
    destruct (fs !! (cur ++ [seg])) as [i|] eqn:E'; [| done].
    rewrite (lookup_weaken _ _ _ _ E' Hsub).
    destruct i as [|pm'|t]; try apply IHp.
    destruct (bool_decide (k < SYMLOOP_MAX)); [| done].
    destruct (resolve_from n fs (S k) [] t) as [[k' c']|] eqn:Et; [| done].
    rewrite (IHn _ _ _ _ Et). apply IHp.
Qed.




Lemma resolve_Some (fs : FS) (p c : path) :
  resolve fs p = Some c ↔ ∃ k, crossing fs p = Some (k, c).
Proof.
  unfold resolve. destruct (crossing fs p) as [[k c']|]; simpl; split.
  - intros [= <-]. by exists k.
  - by intros (k' & [= _ <-]).
  - done.
  - by intros [k' ?].
Qed.

Lemma crossing_app (fs : FS) (p q : path) :
  crossing fs (p ++ q) =
  crossing fs p ≫= λ r, resolve_from SYMLOOP_MAX fs r.1 r.2 q.
Proof. apply resolve_from_app. Qed.

Lemma crossing_weaken (fs fs' : FS) (p : path) (r : nat * path) :
  fs ⊆ fs' → crossing fs p = Some r → crossing fs' p = Some r.
Proof. apply resolve_from_weaken. Qed.

Lemma resolve_weaken (fs fs' : FS) (p c : path) :
  fs ⊆ fs' → resolve fs p = Some c → resolve fs' p = Some c.
Proof.
  intros Hsub [k Hk]%resolve_Some. apply resolve_Some. exists k.
  by eapply crossing_weaken.
Qed.

(** The last step of a resolution that ends on a proper entry. *)
Lemma resolve_from_entry (n k : nat) (fs : FS) (c : path) (nm : string) (pm : perm)
    (i : inode) :
  fs !! c = Some (Dir pm) → p_x pm = true → nm ≠ "" →
  fs !! (c ++ [nm]) = Some i → (∀ t, i ≠ Symlink t) →
  resolve_from n fs k c [nm] = Some (k, c ++ [nm]).
Proof.
  intros Hc Hx Hnm Hi Hkind. rewrite resolve_from_cons, Hc, Hx, Hi.
  rewrite bool_decide_eq_false_2 by done.
  destruct i as [| |t]; try apply resolve_from_nil. by destruct (Hkind t).
Qed.



Lemma valid_name_nonempty (nm : string) : valid_name nm = true → nm ≠ "".
Proof.
  unfold valid_name. intros [_ H]%andb_prop ->.
  apply negb_true_iff, bool_decide_eq_false_1 in H. apply H. set_solver.
Qed.

Lemma dirname_snoc (d : path) (nm : string) : nm ≠ "" → Path.dirname (d ++ [nm]) = d.
Proof.
  intros Hnm. unfold Path.dirname, Path.strip. rewrite last_snoc.
  rewrite bool_decide_eq_false_2 by congruence. apply removelast_last.
Qed.

(** Making directories removes and replaces nothing, whether it succeeds
    or not. *)
Lemma mkdirp_from_subseteq (fs fs' : FS) (made p : path) (ok : bool) :
  mkdirp_from fs made p = (fs', ok) → fs ⊆ fs'.
Proof.
  revert fs made. induction p as [|seg p IH]; intros fs made; cbn [mkdirp_from].
  - by intros [= -> _].
  - destruct (resolve fs (made ++ [seg])) as [c|].
    + destruct (fs !! c) as [[|pm|]|]; try (by intros [= -> _]). apply IH.
    + destruct (resolve fs made) as [d|]; [| by intros [= -> _]].
      destruct (fs !! d) as [[|pm|]|]; try (by intros [= -> _]).
      destruct (p_w pm && p_x pm); [| by intros [= -> _]].
      destruct (fs !! (d ++ [seg])) eqn:E; [by intros [= -> _] |]. intros H%IH.
      etrans; [| exact H]. by apply insert_subseteq.
Qed.

Lemma symlinkSync_Some (fs fs' : FS) (target link : path) :
  symlinkSync fs target link = Some fs' →
  ∃ c nm pm, link = Path.dirname link ++ [nm] ∧
    resolve fs (Path.dirname link) = Some c ∧
    fs !! c = Some (Dir pm) ∧ p_x pm = true ∧ p_w pm = true ∧
    fs !! (c ++ [nm]) = None ∧
    fs' = <[c ++ [nm] := Symlink target]> fs ∧ valid_name nm = true.
Proof.
  unfold symlinkSync. destruct (last link) as [nm|] eqn:El; [| done].
  destruct (valid_name nm) eqn:Ev; [| done].
  destruct (resolve fs (Path.dirname link)) as [c|] eqn:Er; [| done].
  destruct (fs !! c) as [[|pm|]|] eqn:Ec; try done.
  destruct (p_w pm) eqn:Ew; [| done]. destruct (p_x pm) eqn:Ex; [| done]. simpl.
  destruct (fs !! (c ++ [nm])) eqn:En; [done |]. intros [= <-].
  exists c, nm, pm. split_and!; try done.
  destruct link as [|x link _] using rev_ind; [done |].
  rewrite last_snoc in El. injection El as ->.
  by rewrite dirname_snoc by by apply valid_name_nonempty.
Qed.

Lemma ensureLink_cases (platform : string) (link target : path) (fs : FS) (out : list event) :
  ensureLink platform link target (World fs out) =
  if existsSync fs link then (Return exists_, World fs out)
  else let '(fs1, ok) := mkdirSync_recursive fs (Path.dirname link) in
       if ok then
         match symlinkSync fs1 target link with
         | Some fs2 => (Return created, World fs2 out)
         | None => (Return failed, World fs1 out)
         end
       else (Throw "mkdirSync", World fs1 out).
Proof.
  unfold ensureLink, mbind, M_bind, get_fs, fs_update, fs_try, try_catch, mret, M_ret.
  cbv beta iota zeta delta [w_fs w_out].
  destruct (existsSync fs link); [done |].
  destruct (mkdirSync_recursive fs (Path.dirname link)) as [fs1 []]; [| done].
  destruct (win32 platform);
    by destruct (symlinkSync fs1 target link).
Qed.

Lemma existsSync_true (fs : FS) (p : path) :
  existsSync fs p = true ↔ is_Some (resolve fs p).
Proof. unfold existsSync. by rewrite bool_decide_eq_true. Qed.

Lemma strip_prefix_Some (c k r : path) : strip_prefix c k = Some r → k = c ++ r.
Proof.
  revert k. induction c as [|x c IH]; intros k; simpl.
  - by intros [= ->].
  - destruct k as [|y k]; [done |]. case_decide; [| done].
    intros ->%IH. by subst.
Qed.

Lemma strip_prefix_app (c r : path) : strip_prefix c (c ++ r) = Some r.
Proof. induction c as [|x c IH]; simpl; [done |]. by rewrite decide_True. Qed.

Lemma child_of_Some (c : path) (kv : path * inode) (e : dirent) :
  child_of c kv = Some e ↔ kv = (c ++ [name e], kind e) ∧ valid_name (name e) = true.
Proof.
  unfold child_of. destruct kv as [k v]. simpl. split.
  - destruct (strip_prefix c k) as [[|nm [|]]|] eqn:E; try done.
    destruct (valid_name nm) eqn:Ev; [| done].
    intros [= <-]. apply strip_prefix_Some in E. by subst.
  - intros [[= -> ->] Hv]. rewrite strip_prefix_app, Hv. by destruct e.
Qed.

(** A listing holds the entries of the directory that have a proper name. *)
Lemma elem_of_children (fs : FS) (c : path) (e : dirent) :
  e ∈ children fs c ↔
  fs !! (c ++ [name e]) = Some (kind e) ∧ valid_name (name e) = true.
Proof.
  unfold children. rewrite merge_sort_Permutation, list_elem_of_omap. split.
  - intros (kv & Hin & [-> Hv]%child_of_Some). by apply elem_of_map_to_list in Hin.
  - intros [H Hv]. exists (c ++ [name e], kind e). split.
    + by apply elem_of_map_to_list.
    + by apply child_of_Some.
Qed.

Lemma NoDup_children (fs : FS) (c : path) : NoDup (name <$> children fs c).
Proof.
  unfold children. rewrite merge_sort_Permutation.
  pose proof (NoDup_fst_map_to_list fs) as Hnd.
  induction (map_to_list fs) as [|kv l IH]; simpl; [constructor |].
  inversion Hnd as [|? ? Hnotin Hnd']; subst.
  destruct (child_of c kv) as [e|] eqn:E; [| by apply IH].
  simpl. constructor; [| by apply IH].
  intros (e' & Hname & Hin)%list_elem_of_fmap.
  apply list_elem_of_omap in Hin as (kv' & Hin & He').
  apply child_of_Some in E as [E _], He' as [He' _]. subst kv kv'. simpl in Hnotin.
  apply Hnotin. apply list_elem_of_fmap. exists (c ++ [name e'], kind e').
  split; [by rewrite Hname | done].
Qed.

Lemma depth_le (fs : FS) (k : path) (v : inode) :
  fs !! k = Some v → length k ≤ depth fs.
Proof.
  unfold depth. revert k v.
  induction fs as [|k' v' fs Hk' Hfold IH] using map_first_key_ind; intros k v; [done |].
  rewrite map_fold_insert_first_key by done.
  rewrite lookup_insert. case_decide as Hd.
  - intros _. subst. lia.
  - intros H%IH. lia.
Qed.

Lemma readdirSync_Some (fs : FS) (d : path) (es : list dirent) :
  readdirSync fs d = Some es →
  ∃ c pm, resolve fs d = Some c ∧ fs !! c = Some (Dir pm) ∧ p_r pm = true ∧
          es = children fs c.
Proof.
  unfold readdirSync. destruct (resolve fs d) as [c|] eqn:E; [| done].
  destruct (fs !! c) as [[|pm|]|] eqn:Ec; try done.
  destruct (p_r pm) eqn:Er; [| done]. intros [= <-]. by exists c, pm.
Qed.

Lemma resolve_None_app (fs : FS) (d q : path) :
  resolve fs d = None → resolve fs (d ++ q) = None.
Proof.
  unfold resolve. rewrite crossing_app. by destruct (crossing fs d).
Qed.


Lemma resolve_child_dir (fs : FS) (d c : path) (nm : string) (pm' : perm) :
  resolve fs d = Some c → fs !! (c ++ [nm]) = Some (Dir pm') → nm ≠ "" →
  ∀ c', resolve fs (d ++ [nm]) = Some c' → c' = c ++ [nm].
Proof.
  intros [k Hd]%resolve_Some Hc Hnm c'. unfold resolve.
  rewrite crossing_app, Hd. cbn [mbind option_bind fst snd].
  rewrite resolve_from_cons, Hc, bool_decide_eq_false_2 by done.
  destruct (fs !! c) as [[|pm|]|]; try done. destruct (p_x pm); [| done].
  rewrite resolve_from_nil. by intros [= <-].
Qed.

Lemma descend_inv (e : dirent) :
  descend e = true → (∃ pm, kind e = Dir pm) ∧ ok_name (name e).
Proof.
  unfold descend, isDirectory, ok_name.
  intros [[H1 H2]%andb_prop H3]%andb_prop.
  apply negb_true_iff in H2, H3. apply bool_decide_eq_false_1 in H3.
  destruct (kind e); try done. eauto.
Qed.

Lemma walk_entries_total (rec : path → list path → option (list path))
    (d : path) (es : list dirent) (repos : list path) :
  (∀ e repos', e ∈ es → descend e = true → is_Some (rec (d ++ [name e]) repos')) →
  is_Some (walk_entries rec d es repos).
Proof.
  revert repos. induction es as [|e es IH]; intros repos Hrec; simpl; [by eexists |].
  destruct (descend e) eqn:Ed.
  - destruct (Hrec e repos) as [repos' ->]; [left | done |].
    apply IH. intros. apply Hrec; [by right | done].
  - apply IH. intros. apply Hrec; [by right | done].
Qed.

Lemma walk_total_from (fs : FS) (k : nat) (d : path) (repos : list path) :
  (∀ c, resolve fs d = Some c → depth fs ≤ k + length c) →
  is_Some (walk (S k) fs d repos).
Proof.
  revert d repos. induction k as [|k IH]; intros d repos Hk;
    cbn [walk]; (destruct (existsSync fs (d ++ [".git"])); [by eexists |]);
    (destruct (readdirSync fs d) as [es|] eqn:Er; [| by eexists]);
    apply readdirSync_Some in Er as (c & pm & Hc & Hdir & _ & ->);
    apply walk_entries_total; intros e repos' He Hd;
    apply elem_of_children in He as [He Hv%valid_name_nonempty];
    apply descend_inv in Hd as [[pm' Hkind] _];
    rewrite Hkind in He; pose proof (depth_le _ _ _ He) as Hlen;
    rewrite length_app in Hlen; simpl in Hlen; specialize (Hk c Hc) as Hk'.
  - lia.
  - apply IH. intros c' Hc'.
    rewrite (resolve_child_dir _ _ _ _ _ Hc He Hv c' Hc'), length_app. simpl. lia.
Qed.

Lemma findGitRepos_total (fs : FS) (root : path) : is_Some (findGitRepos fs root).
Proof.
  unfold findGitRepos. destruct (existsSync fs root); cbn [negb]; [| by eexists].
  apply (walk_total_from fs (S (depth fs))). intros. lia.
Qed.

Lemma child_prefix_name (d s1 s2 : path) (n1 n2 : string) :
  d ++ [n1] ++ s1 `prefix_of` d ++ [n2] ++ s2 → n1 = n2.
Proof. intros H%prefix_app_inv. by apply prefix_cons_inv_1 in H. Qed.

Lemma walk_entries_found (fs : FS) (rec : path → list path → option (list path))
    (d : path) (es : list dirent) (repos out : list path) :
  (∀ d' repos' out', rec d' repos' = Some out' →
     ∃ new, out' = repos' ++ new ∧ found fs d' new) →
  NoDup (name <$> es) →
  walk_entries rec d es repos = Some out →
  ∃ new, out = repos ++ new ∧ NoDup new ∧ antichain new ∧
    ∀ r, r ∈ new → ∃ e s, e ∈ es ∧ descend e = true ∧
      r = d ++ [name e] ++ s ∧ Forall ok_name s ∧ marker fs r = true.
Proof.
  intros Hrec. revert repos out.
  induction es as [|e es IH]; intros repos out Hnd; simpl.
  - intros [= <-]. exists []. rewrite app_nil_r. split_and!; try done.
    + constructor.
    + by intros ?? ?%elem_of_nil.
    + by intros ? ?%elem_of_nil.
  - rewrite fmap_cons in Hnd. apply NoDup_cons in Hnd as [Hnotin Hnd].
    destruct (descend e) eqn:Ed.
    + destruct (rec (d ++ [name e]) repos) as [repos1|] eqn:E1; [| done].
      intros E2. apply Hrec in E1 as (new1 & -> & Hnd1 & Hac1 & H1).
      apply IH in E2 as (new2 & -> & Hnd2 & Hac2 & H2); [| done].
      assert (∀ a b, a ∈ new1 → b ∈ new2 → ¬ a `prefix_of` b ∧ ¬ b `prefix_of` a)
        as Hdisj.
      { intros a b Ha Hb.
        destruct (H1 a Ha) as (s1 & -> & _).
        destruct (H2 b Hb) as (e2 & s2 & He2 & _ & -> & _).
        assert (name e ≠ name e2) as Hne.
        { intros Heq. apply Hnotin. rewrite Heq. by apply list_elem_of_fmap_2. }
        rewrite <- !(assoc_L (++)).
        split; intros Hp%child_prefix_name; congruence. }
      exists (new1 ++ new2). rewrite (assoc_L (++)). split_and!; try done.
      * apply NoDup_app. split_and!; try done.
        intros a Ha Hb. by destruct (Hdisj a a Ha Hb) as [[] _].
      * intros a b [Ha|Ha]%elem_of_app [Hb|Hb]%elem_of_app Hp.
        -- by apply Hac1.
        -- by destruct (Hdisj a b Ha Hb) as [[] _].
        -- by destruct (Hdisj b a Hb Ha) as [_ []].
        -- by apply Hac2.
      * intros r [Hr|Hr]%elem_of_app.
        -- destruct (H1 r Hr) as (s & -> & Hs & Hm).
           exists e, s. rewrite <- (assoc_L (++)) in *.
           split_and!; try done. left.
        -- destruct (H2 r Hr) as (e2 & s & He2 & Hd2 & -> & Hs & Hm).
           exists e2, s. split_and!; try done. by right.
    + intros E2. apply IH in E2 as (new2 & -> & Hnd2 & Hac2 & H2); [| done].
      exists new2. split_and!; try done.
      intros r Hr. destruct (H2 r Hr) as (e2 & s & He2 & Hd2 & -> & Hs & Hm).
      exists e2, s. split_and!; try done. by right.
Qed.

Lemma walk_found (fs : FS) (n : nat) (d : path) (repos out : list path) :
  walk n fs d repos = Some out → ∃ new, out = repos ++ new ∧ found fs d new.
Proof.
  revert d repos out. induction n as [|n IH]; intros d repos out; [done |].
  cbn [walk]. destruct (existsSync fs (d ++ [".git"])) eqn:Em.
  - intros [= <-]. exists [d]. split; [done |]. split_and!.
    + apply NoDup_singleton.
    + by intros a b ->%list_elem_of_singleton ->%list_elem_of_singleton.
    + intros r ->%list_elem_of_singleton. exists []. by rewrite app_nil_r.
  - destruct (readdirSync fs d) as [es|] eqn:Er.
    + apply readdirSync_Some in Er as (c & pm & _ & _ & _ & ->).
      intros (new & -> & Hnd & Hac & H)%(walk_entries_found fs);
        [| exact IH | apply NoDup_children].
      exists new. split; [done |]. split_and!; try done.
      intros r Hr. destruct (H r Hr) as (e & s & _ & [_ Hok]%descend_inv & -> & Hs & Hm).
      exists (name e :: s). split_and!; try done. by constructor.
    + intros [= <-]. exists []. rewrite app_nil_r. split; [done |]. split_and!.
      * constructor.
      * by intros ?? ?%elem_of_nil.
      * by intros ? ?%elem_of_nil.
Qed.

Lemma findGitRepos_found (fs : FS) (root : path) (out : list path) :
  findGitRepos fs root = Some out → found fs root out.
Proof.
  unfold findGitRepos. destruct (existsSync fs root); cbn [negb].
  - intros (new & -> & H)%walk_found. done.
  - intros [= <-]. split_and!.
    + constructor.
    + by intros ?? ?%elem_of_nil.
    + by intros ? ?%elem_of_nil.
Qed.

Lemma walk_entries_extends (rec : path → list path → option (list path))
    (d : path) (es : list dirent) (repos out : list path) :
  (∀ d' repos' out', rec d' repos' = Some out' → repos' ⊆ out') →
  walk_entries rec d es repos = Some out → repos ⊆ out.
Proof.
  intros Hrec. revert repos. induction es as [|e es IH]; intros repos; simpl.
  - by intros [= <-].
  - destruct (descend e).
    + destruct (rec (d ++ [name e]) repos) as [repos1|] eqn:E1; [| done].
      intros H%IH. apply Hrec in E1. by etrans.
    + apply IH.
Qed.

Lemma walk_extends (fs : FS) (n : nat) (d : path) (repos out : list path) :
  walk n fs d repos = Some out → repos ⊆ out.
Proof.
  intros (new & -> & _)%walk_found. intros x Hx. apply elem_of_app. by left.
Qed.

Lemma walk_entries_visits (rec : path → list path → option (list path))
    (d : path) (es : list dirent) (repos out : list path) (e : dirent) :
  (∀ d' repos' out', rec d' repos' = Some out' → repos' ⊆ out') →
  walk_entries rec d es repos = Some out →
  e ∈ es → descend e = true →
  ∃ repos1 out1, rec (d ++ [name e]) repos1 = Some out1 ∧ out1 ⊆ out.
Proof.
  intros Hrec. revert repos. induction es as [|e' es IH]; intros repos; simpl.
  - by intros _ ?%elem_of_nil.
  - intros Hw [->|He]%elem_of_cons Hd.
    + rewrite Hd in Hw.
      destruct (rec (d ++ [name e']) repos) as [repos1|] eqn:E1; [| done].
      exists repos, repos1. split; [done |].
      by eapply walk_entries_extends.
    + destruct (descend e').
      * destruct (rec (d ++ [name e']) repos) as [repos1|] eqn:E1; [| done].
        by eapply IH.
      * by eapply IH.
Qed.

Lemma walk_complete (fs : FS) (n : nat) (d0 d : path) (repos out : list path) :
  walk n fs d0 repos = Some out → reach fs d0 d → marker fs d = true → d ∈ out.
Proof.
  revert d0 repos out. induction n as [|n IH]; intros d0 repos out; [done |].
  cbn [walk]. intros Hw Hreach Hm. destruct Hreach as [d|d0 es e d Hno Hrd He Hd Hreach].
  - unfold marker in Hm. rewrite Hm in Hw. injection Hw as <-.
    apply elem_of_app. right. by apply list_elem_of_singleton.
  - rewrite Hno, Hrd in Hw.
    destruct (walk_entries_visits _ _ _ _ _ e (walk_extends fs n) Hw He Hd)
      as (repos1 & out1 & Hw1 & Hsub).
    apply Hsub. by eapply IH.
Qed.

Lemma resolve_app_Some (fs : FS) (d q c : path) :
  resolve fs (d ++ q) = Some c → is_Some (resolve fs d).
Proof.
  intros H. destruct (resolve fs d) eqn:E; [by eexists |].
  by rewrite (resolve_None_app _ _ q E) in H.
Qed.

Lemma reach_exists (fs : FS) (root d : path) :
  reach fs root d → marker fs d = true → existsSync fs root = true.
Proof.
  intros [d'|d0 es e d' _ Hrd _ _ _] Hm.
  - apply existsSync_true in Hm as [c Hc]. apply existsSync_true.
    by eapply resolve_app_Some.
  - apply readdirSync_Some in Hrd as (c & _ & Hc & _). apply existsSync_true.
    by rewrite Hc.
Qed.

Lemma marker_entry (fs : FS) (d c : path) (pm : perm) (i : inode) :
  resolve fs d = Some c → fs !! c = Some (Dir pm) → p_x pm = true →
  fs !! (c ++ [".git"]) = Some i → (∀ t, i ≠ Symlink t) →
  marker fs d = true.
Proof.
  intros [k Hd]%resolve_Some Hc Hx Hi Hkind. apply existsSync_true.
  exists (c ++ [".git"]). unfold resolve. rewrite crossing_app, Hd. simpl.
  by rewrite (resolve_from_entry _ _ _ _ ".git" _ _ Hc Hx ltac:(discriminate) Hi Hkind).
Qed.

End FsFacts.

(** ** Running the commands step by step *)

Module RunFacts.
Import FsFacts.

Lemma bind_run {A B : Type} (m : M A) (f : A → M B) (w : world) :
  (m ≫= f) w =
  match m w with
  | (Return a, w') => f a w'
  | (Throw o, w') => (Throw o, w')
  | (Exit c, w') => (Exit c, w')
  | (Diverge, w') => (Diverge, w')
  end.
Proof. reflexivity. Qed.

Lemma bind_ret {A B : Type} (a : A) (f : A → M B) (w : world) : (mret a ≫= f) w = f a w.
Proof. reflexivity. Qed.

Lemma bind_assoc {A B C : Type} (m : M A) (f : A → M B) (g : B → M C) (w : world) :
  ((m ≫= f) ≫= g) w = (m ≫= λ a, f a ≫= g) w.
Proof. rewrite !bind_run. by destruct (m w) as [[]]. Qed.

Lemma bind_emit {B : Type} (e : event) (f : unit → M B) (fs : FS) (out : list event) :
  (emit e ≫= f) (World fs out) = f () (World fs (out ++ [e])).
Proof. reflexivity. Qed.

Lemma bind_exit {A B : Type} (c : nat) (f : A → M B) (w : world) :
  (exit c ≫= f) w = (Exit c, w).
Proof. reflexivity. Qed.

Lemma bind_get_fs {B : Type} (f : FS → M B) (fs : FS) (out : list event) :
  (get_fs ≫= f) (World fs out) = f fs (World fs out).
Proof. reflexivity. Qed.

Lemma bind_fs_update {B : Type} (o : string) (g : FS → option FS) (f : unit → M B)
    (fs : FS) (out : list event) :
  (fs_update o g ≫= f) (World fs out) =
  match g fs with
  | Some fs' => f () (World fs' out)
  | None => (Throw o, World fs out)
  end.
Proof. rewrite bind_run. unfold fs_update. simpl. by destruct (g fs). Qed.

Lemma bind_fs_try {B : Type} (o : string) (g : FS → FS * bool) (f : unit → M B)
    (fs : FS) (out : list event) :
  (fs_try o g ≫= f) (World fs out) =
  if (g fs).2 then f () (World (g fs).1 out) else (Throw o, World (g fs).1 out).
Proof. rewrite bind_run. unfold fs_try. simpl. by destruct (g fs) as [fs' []]. Qed.

Lemma bind_gitExec {B : Type} (git : git_cmd → FS → bool * FS) (c : git_cmd)
    (f : bool → M B) (fs : FS) (out : list event) :
  (gitExec git c ≫= f) (World fs out) = f (git c fs).1 (World (git c fs).2 out).
Proof. rewrite bind_run. unfold gitExec. simpl. by destruct (git c fs). Qed.

Lemma bind_ensureLink {B : Type} (platform : string) (link target : path)
    (f : link_status → M B) (fs : FS) (out : list event) :
  (ensureLink platform link target ≫= f) (World fs out) =
  if existsSync fs link then f exists_ (World fs out)
  else let '(fs1, ok) := mkdirSync_recursive fs (Path.dirname link) in
       if ok then
         match symlinkSync fs1 target link with
         | Some fs2 => f created (World fs2 out)
         | None => f failed (World fs1 out)
         end
       else (Throw "mkdirSync", World fs1 out).
Proof.
  rewrite bind_run, ensureLink_cases.
  destruct (existsSync fs link); [done |].
  destruct (mkdirSync_recursive fs (Path.dirname link)) as [fs1 []]; [| done].
  by destruct (symlinkSync _ target link).
Qed.

Lemma run_emit (e : event) (fs : FS) (out : list event) :
  emit e (World fs out) = (Return (), World fs (out ++ [e])).
Proof. reflexivity. Qed.

Ltac step :=
  repeat first
    [ rewrite bind_assoc | rewrite bind_ret | rewrite bind_emit | rewrite bind_exit
    | rewrite bind_get_fs | rewrite bind_fs_update | rewrite bind_fs_try
    | rewrite bind_gitExec
    | rewrite bind_ensureLink | rewrite run_emit ].

Ltac step_in H :=
  repeat first
    [ rewrite bind_assoc in H | rewrite bind_ret in H | rewrite bind_emit in H
    | rewrite bind_exit in H
    | rewrite bind_get_fs in H | rewrite bind_fs_update in H | rewrite bind_fs_try in H
    | rewrite bind_gitExec in H
    | rewrite bind_ensureLink in H | rewrite run_emit in H ].

Ltac head_case H :=
  match type of H with
  | ((if ?c then _ else _) ≫= _) _ = _ => destruct c eqn:?
  | (if ?c then _ else _) _ = _ => destruct c eqn:?
  | (if ?c then _ else _) = _ => destruct c eqn:?
  | (match ?c with _ => _ end) = _ => destruct c eqn:?
  end.

Lemma parseGitUrl_world (url : string) (w : world) (p : parsed) :
  (parseGitUrl url w).1 = Return p → parseGitUrl url w = (Return p, w).
Proof.
  unfold parseGitUrl. rewrite bind_run.
  destruct (Regex.exec sshRe url), (Regex.exec httpsRe url); simpl; by intros [= <-].
Qed.

Lemma created_link_at (fs1 fs2 : FS) (target link : path) :
  symlinkSync fs1 target link = Some fs2 → link_at fs2 link target.
Proof.
  intros (c & nm & pm & Hl & Hr & Hc & Hx & Hw & Hn & -> & _)%symlinkSync_Some.
  exists c, nm. split_and!; [done | | apply lookup_insert_eq].
  eapply resolve_weaken; [| exact Hr]. by apply insert_subseteq.
Qed.

End RunFacts.

(** ** The claims *)

Import StrFacts ParseFacts FsFacts RunFacts.

#[local] Opaque SYMLOOP_MAX.

(** *** Link reconciliation *)

(** C1, at a failing input.  The claim: [ensureLink] never throws, an error
    while creating the parent directories included.  Here a regular file
    [/vault/group] lies where the parent directory of the link is needed:
    nothing exists at the link path, [mkdirSync] (which stands before the
    [try] block) throws, and the exception leaves [ensureLink]. *)
Theorem ensureLink_throws_when_parent_is_a_file :
  existsSync Sample.fs_blocked ["vault"; "group"; "repoB"] = false ∧
  ensureLink "linux" ["vault"; "group"; "repoB"] ["src"; "group"; "repoB"]
    (World Sample.fs_blocked []) = (Throw "mkdirSync", World Sample.fs_blocked []).
Proof. split; vm_compute; reflexivity. Qed.




(** *** Pull-all *)

(** C2, at a failing input.  The claim: a repository whose link cannot be
    made gets a warning line.  Here a stale link lies at [/vault/repoA]:
    [ensureLink] reports [failed] for [repoA], and the run goes on to its
    summary, but all it prints for [repoA] is the progress text, the same as
    for a link that is already there. *)
Theorem cmdPull_silent_on_failed_link :
  (ensureLink "linux" ["vault"; "repoA"] ["src"; "repoA"] (World Sample.fs_stale [])).1
    = Return failed ∧
  (cmdPull_with ["vault"] "linux" Sample.git_ok [["src"]] (World Sample.fs_stale [])).1
    = Return () ∧
  w_out (cmdPull_with ["vault"] "linux" Sample.git_ok [["src"]] (World Sample.fs_stale [])).2
    = [Log "=== Pulling vault ==="; Log "";
       Stdout "  group/repoB ... "; Log "  symlink created.";
       Stdout "  repoA ... ";
       Log ""; Log "2 repos pulled, 1 symlinks created."].
Proof. split_and!; vm_compute; reflexivity. Qed.

(** *** The parser *)

(** C4 as stated fails: a user other than [git] is not accepted. *)
Lemma parseGitUrl_rejects_other_user :
  (parseGitUrl "alice@github.com:org/project.git" (World ∅ [])).1 = Exit 1.
Proof. vm_compute. reflexivity. Qed.

(** C4, amended: for every identifier [git@host:path] with a non-empty host
    free of [:] and a non-empty path free of line terminators, followed by
    [.git] or (when the path does not itself end in [.git]) by nothing, the
    parser succeeds and yields the first segment of the path as organisation
    and the remaining segments joined by [/] as project path. *)
Theorem parseGitUrl_ssh_git (host q : string) (w : world) :
  host ≠ "" → Str.free_of (Ascii.eqb ":") host = true →
  q ≠ "" → Str.free_of Regex.is_line_terminator q = true →
  parseGitUrl (ssh_url host (q +:+ ".git")) w =
    (Return (Parsed (default "" (head (Str.split "/" q)))
                    (Str.join "/" (drop 1 (Str.split "/" q)))), w)
  ∧ (has_git_suffix q = false →
     parseGitUrl (ssh_url host q) w =
       (Return (Parsed (default "" (head (Str.split "/" q)))
                       (Str.join "/" (drop 1 (Str.split "/" q)))), w))
  ∧ (∀ o rest, q = o +:+ "/" +:+ rest → Str.free_of (Ascii.eqb "/") o = true →
     parseGitUrl (ssh_url host (q +:+ ".git")) w = (Return (Parsed o rest), w)).
Proof.
  intros Hhost Hcolon Hq Hlt.
  assert (parseGitUrl (ssh_url host (q +:+ ".git")) w = (Return (segments_of q), w)) as H1.
  { apply parse_ssh_some; [done | done |]. by apply repo_of_path. }
  split_and!.
  - exact H1.
  - intros Hsfx. apply parse_ssh_some; [done | done |].
    rewrite <- (app_nil_r q) at 1. apply repo_of_path; [done | done | done |].
    intros _. by apply has_git_suffix_false.
  - intros o rest -> Ho. rewrite H1. by rewrite segments_of_slash.
Qed.

Lemma parseGitUrl_ssh_git_witness :
  parseGitUrl "git@github.com:org/group/project.git" (World ∅ []) =
  (Return (Parsed "org" "group/project"), World ∅ []).
Proof.
  exact (proj1 (parseGitUrl_ssh_git "github.com" "org/group/project" (World ∅ [])
           ltac:(discriminate) eq_refl ltac:(discriminate) eq_refl)).
Defined.

(** C5 as stated fails for a project path that ends in [.git]: with the
    suffix on the SSH identifier only, the two results differ.  It fails
    for a host that carries a port as well (the SSH pattern ends the host at
    the first colon), and for a host that holds a [/] (the HTTPS pattern
    ends the host there).  With an empty host, or a line feed in the path,
    neither identifier parses, and no pair is yielded. *)
Lemma parse_ssh_https_differ :
  (parseGitUrl "git@h:org/x.git.git" (World ∅ [])).1 = Return (Parsed "org" "x.git") ∧
  (parseGitUrl "https://h/org/x.git" (World ∅ [])).1 = Return (Parsed "org" "x") ∧
  (parseGitUrl "git@h:8022:org/x.git" (World ∅ [])).1 = Return (Parsed "8022:org" "x") ∧
  (parseGitUrl "https://h:8022/org/x.git" (World ∅ [])).1 = Return (Parsed "org" "x") ∧
  (parseGitUrl "git@h/a:org/x.git" (World ∅ [])).1 = Return (Parsed "org" "x") ∧
  (parseGitUrl "https://h/a/org/x.git" (World ∅ [])).1 = Return (Parsed "a" "org/x") ∧
  (parseGitUrl "git@:org/x.git" (World ∅ [])).1 = Exit 1 ∧
  (parseGitUrl "https:///org/x.git" (World ∅ [])).1 = Exit 1 ∧
  (parseGitUrl ("git@h:org/x" +:+ nl +:+ "y.git") (World ∅ [])).1 = Exit 1 ∧
  (parseGitUrl ("https://h/org/x" +:+ nl +:+ "y.git") (World ∅ [])).1 = Exit 1.
Proof. split_and!; vm_compute; reflexivity. Qed.

(** C5, amended: for a non-empty host free of [:] and [/], an organisation
    free of [/] and a project path such that [org/path] holds no line
    terminator, the SSH identifier [git@host:org/path.git] and the HTTPS
    identifier [https://host/org/path.git] both parse, and both yield the
    pair of that organisation and that project path; and so do both
    identifiers without [.git], whenever [org/path] does not itself end in
    [.git].  Any two of the four identifiers so yield identical pairs. *)
Theorem parse_ssh_https_agree (host o p : string) (w : world) :
  host ≠ "" → Str.free_of (Ascii.eqb ":") host = true →
  Str.free_of (Ascii.eqb "/") host = true →
  Str.free_of (Ascii.eqb "/") o = true →
  Str.free_of Regex.is_line_terminator (o +:+ "/" +:+ p) = true →
  (parseGitUrl (ssh_url host (o +:+ "/" +:+ p +:+ ".git")) w = (Return (Parsed o p), w) ∧
   parseGitUrl (https_url host (o +:+ "/" +:+ p +:+ ".git")) w
     = (Return (Parsed o p), w)) ∧
  (has_git_suffix (o +:+ "/" +:+ p) = false →
   parseGitUrl (ssh_url host (o +:+ "/" +:+ p)) w = (Return (Parsed o p), w) ∧
   parseGitUrl (https_url host (o +:+ "/" +:+ p)) w = (Return (Parsed o p), w)).
Proof.
  intros Hhost Hcolon Hslash Ho Hlt.
  set (b := o +:+ "/" +:+ p) in *.
  assert (b ≠ "") as Hb.
  { unfold b. intros [_ H]%app_empty. done. }
  assert (segments_of b = Parsed o p) as Hseg by by apply segments_of_slash.
  assert (o +:+ "/" +:+ p +:+ ".git" = b +:+ ".git") as -> by (unfold b; by rewrite !app_assoc).
  assert (repo_of (b +:+ ".git") = Some b) as H1 by by apply repo_of_path.
  assert (has_git_suffix b = false → repo_of b = Some b) as H2.
  { intros Hsfx. rewrite <- (app_nil_r b) at 1.
    apply repo_of_path; [done | done | done |].
    intros _. by apply has_git_suffix_false. }
  rewrite <- Hseg. unfold https_url. split; [split | intros Hsfx; split].
  - by apply parse_ssh_some.
  - by apply parse_web_some.
  - apply parse_ssh_some; auto.
  - apply parse_web_some; auto.
Qed.

Lemma parse_ssh_https_agree_witness :
  (parseGitUrl "git@github.com:org/group/project.git" (World ∅ [])
     = (Return (Parsed "org" "group/project"), World ∅ []) ∧
   parseGitUrl "https://github.com/org/group/project.git" (World ∅ [])
     = (Return (Parsed "org" "group/project"), World ∅ [])) ∧
  parseGitUrl "git@github.com:org/group/project" (World ∅ [])
    = (Return (Parsed "org" "group/project"), World ∅ []) ∧
  parseGitUrl "https://github.com/org/group/project" (World ∅ [])
    = (Return (Parsed "org" "group/project"), World ∅ []).
Proof.
  pose proof (parse_ssh_https_agree "github.com" "org" "group/project" (World ∅ [])
                ltac:(discriminate) eq_refl eq_refl eq_refl eq_refl) as [H1 H2].
  exact (conj H1 (H2 eq_refl)).
Defined.

(** C8: an identifier of either shape whose path is a single non-empty
    segment parses, with that segment as organisation and the empty string
    as project path.  The segment is followed by [.git], or by nothing when
    it does not itself end in [.git].  The host is what stands before the
    first [/] of an identifier [scheme://host/segment] (a port included),
    and before the first [:] of an identifier [git@host:segment]. *)
Theorem parseGitUrl_single_segment (host seg : string) (w : world) :
  host ≠ "" →
  seg ≠ "" → Str.free_of (Ascii.eqb "/") seg = true →
  Str.free_of Regex.is_line_terminator seg = true →
  (Str.free_of (Ascii.eqb "/") host = true →
   ∀ scheme, web_scheme scheme = true →
     parseGitUrl (web_url scheme host (seg +:+ ".git")) w = (Return (Parsed seg ""), w) ∧
     (has_git_suffix seg = false →
      parseGitUrl (web_url scheme host seg) w = (Return (Parsed seg ""), w))) ∧
  (Str.free_of (Ascii.eqb ":") host = true →
   parseGitUrl (ssh_url host (seg +:+ ".git")) w = (Return (Parsed seg ""), w) ∧
   (has_git_suffix seg = false →
    parseGitUrl (ssh_url host seg) w = (Return (Parsed seg ""), w))).
Proof.
  intros Hhost Hseg Hfree Hlt.
  assert (repo_of (seg +:+ ".git") = Some seg) as H1 by by apply repo_of_path.
  assert (has_git_suffix seg = false → repo_of seg = Some seg) as H2.
  { intros Hsfx. rewrite <- (app_nil_r seg) at 1.
    apply repo_of_path; [done | done | done |].
    intros _. by apply has_git_suffix_false. }
  rewrite <- (segments_of_single seg Hfree).
  split.
  - intros Hslash scheme Hs. split.
    + by apply parse_web_some.
    + intros Hsfx. apply parse_web_some; auto.
  - intros Hcolon. split.
    + by apply parse_ssh_some.
    + intros Hsfx. apply parse_ssh_some; auto.
Qed.

Lemma parseGitUrl_single_segment_witness :
  parseGitUrl "git@host:org.git" (World ∅ []) = (Return (Parsed "org" ""), World ∅ []) ∧
  parseGitUrl "https://host:8443/org.git" (World ∅ [])
    = (Return (Parsed "org" ""), World ∅ []).
Proof.
  split.
  - exact (proj1 (proj2 (parseGitUrl_single_segment "host" "org" (World ∅ [])
             ltac:(discriminate) ltac:(discriminate) eq_refl eq_refl) eq_refl)).
  - exact (proj1 (proj1 (parseGitUrl_single_segment "host:8443" "org" (World ∅ [])
             ltac:(discriminate) ltac:(discriminate) eq_refl eq_refl) eq_refl
             "https" eq_refl)).
Defined.

(** *** Add-one *)

(** C9 as stated fails for an empty override: the empty string is given
    after [--link], yet the link is placed at the vault root joined with the
    project path, not with the override. *)
Lemma cmdAdd_empty_override :
  last (w_out (cmdAdd_with ["vault"] "linux" Sample.git_ok [["src"]]
                 "git@github.com:org/repoA.git" (Some "")
                 (World Sample.fs_scenario [])).2)
    = Some (Log "Done: /vault/repoA") ∧
  w_fs (cmdAdd_with ["vault"] "linux" Sample.git_ok [["src"]]
          "git@github.com:org/repoA.git" (Some "")
          (World Sample.fs_scenario [])).2 !! ["vault"; "repoA"]
    = Some (Symlink ["src"; "repoA"]) ∧
  Path.join ["vault"] "" = ["vault"].
Proof. split_and!; vm_compute; reflexivity. Qed.

(** C9, amended: after a successful parse, add-one announces and uses as
    clone destination the first source root joined with the project path
    (git is only ever run on that path), and on a normal end the link path,
    which is the vault root joined with the override when a non-empty one is
    given and with the project path otherwise, either existed already or now
    holds a link to the clone destination. *)
Theorem cmdAdd_destinations (VAULT_ROOT : path) (platform : string)
    (git : git_cmd → FS → bool * FS) (srcDirs : list path) (base : path)
    (url : string) (linkOverride : option string) (p : parsed)
    (w wf : world) (r : completion unit) :
  (parseGitUrl url w).1 = Return p →
  head srcDirs = Some base →
  cmdAdd_with VAULT_ROOT platform git srcDirs url linkOverride w = (r, wf) →
  let clonePath := Path.join base (projectPath p) in
  let linkAbsolute :=
    Path.join VAULT_ROOT
      (match linkOverride with
       | Some o => if decide (o = "") then projectPath p else o
       | None => projectPath p
       end) in
  Log ("  Clone to:    " +:+ Path.show clonePath) ∈ w_out wf ∧
  (∀ git' : git_cmd → FS → bool * FS,
     git' (GitPull clonePath) = git (GitPull clonePath) →
     git' (GitClone url clonePath) = git (GitClone url clonePath) →
     cmdAdd_with VAULT_ROOT platform git' srcDirs url linkOverride w = (r, wf)) ∧
  (r = Return () →
     last (w_out wf) = Some (Log ("Done: " +:+ Path.show linkAbsolute)) ∧
     (existsSync (w_fs wf) linkAbsolute = true ∨
      link_at (w_fs wf) linkAbsolute clonePath)).
Proof.
  intros Hp%parseGitUrl_world Hbase Hrun clonePath linkAbsolute.
  destruct w as [fs out].
  split; [| split].
  2:{ intros git' H1 H2. unfold cmdAdd_with in *.
      rewrite bind_run, Hp, Hbase, bind_ret in Hrun.
      rewrite bind_run, Hp, Hbase, bind_ret.
      fold clonePath in Hrun |- *. unfold gitExec in *.
      rewrite H1, H2. exact Hrun. }
  all: unfold cmdAdd_with in Hrun; rewrite bind_run, Hp, Hbase in Hrun;
    fold clonePath in Hrun;
    change (or_else linkOverride (projectPath p)) with
      (match linkOverride with
       | Some o => if decide (o = "") then projectPath p else o
       | None => projectPath p
       end) in Hrun;
    fold linkAbsolute in Hrun; step_in Hrun.
  all: repeat (head_case Hrun; try congruence; step_in Hrun).
  all: injection Hrun as <- <-; cbn [w_out w_fs].
  all: try (rewrite !elem_of_app, !list_elem_of_singleton; by eauto 20).
  all: try done.
  all: intros _; (split; [by rewrite last_snoc |]); by eauto using created_link_at.
Qed.

Lemma cmdAdd_destinations_witness :
  Log "  Clone to:    /src/group/project"
    ∈ w_out (cmdAdd_with ["vault"] "linux" Sample.git_clones [["src"]]
               "git@github.com:org/group/project.git" None
               (World Sample.fs_scenario [])).2 ∧
  (existsSync
     (w_fs (cmdAdd_with ["vault"] "linux" Sample.git_clones [["src"]]
              "git@github.com:org/group/project.git" None
              (World Sample.fs_scenario [])).2)
     ["vault"; "group"; "project"] = true ∨
   link_at
     (w_fs (cmdAdd_with ["vault"] "linux" Sample.git_clones [["src"]]
              "git@github.com:org/group/project.git" None
              (World Sample.fs_scenario [])).2)
     ["vault"; "group"; "project"] ["src"; "group"; "project"]).
Proof.
  pose proof (cmdAdd_destinations ["vault"] "linux" Sample.git_clones [["src"]] ["src"]
    "git@github.com:org/group/project.git" None (Parsed "org" "group/project")
    (World Sample.fs_scenario [])
    (cmdAdd_with ["vault"] "linux" Sample.git_clones [["src"]]
       "git@github.com:org/group/project.git" None (World Sample.fs_scenario [])).2
    (Return ())
    ltac:(vm_compute; reflexivity) eq_refl ltac:(vm_compute; reflexivity)) as H.
  cbv zeta in H. destruct H as (H1 & _ & H3). split.
  - exact H1.
  - exact (proj2 (H3 eq_refl)).
Defined.

(** A separator at the end of the identifier, or of the override, reaches
    the paths of add-one: the clone path is announced with it, no link can
    be made at a path that ends with it, and add-one exits with code 1. *)
Example cmdAdd_separator_at_the_end :
  Path.show (Path.join ["src"] "repo/") = "/src/repo/" ∧
  w_out (cmdAdd_with ["vault"] "linux" Sample.git_clones [["src"]]
           "https://h/org/repo/" None (World Sample.fs_scenario [])).2 !! 3
    = Some (Log "  Clone to:    /src/repo/") ∧
  (cmdAdd_with ["vault"] "linux" Sample.git_clones [["src"]]
     "https://h/org/repo/" None (World Sample.fs_scenario [])).1 = Exit 1 ∧
  (cmdAdd_with ["vault"] "linux" Sample.git_clones [["src"]]
     "https://h/org/repoA" (Some "docs/") (World Sample.fs_scenario [])).1 = Exit 1.
Proof. split_and!; vm_compute; reflexivity. Qed.

(** *** Discovery *)

(** C6 as stated fails when the root itself is hidden: what is found lies
    beneath a hidden directory. *)
Lemma findGitRepos_under_hidden_root :
  findGitRepos Sample.fs_hidden ["src"; ".cfg"] = Some [["src"; ".cfg"; "r"]] ∧
  Str.startsWith "." ".cfg" = true.
Proof. split; vm_compute; reflexivity. Qed.

(** C6, amended: the result of [findGitRepos] has no duplicates, no path of
    it is an ancestor of another, and every path of it lies under the root
    with no hidden and no [node_modules] directory strictly below the root
    on the way (the name of the root and of its ancestors is not tested). *)
Theorem findGitRepos_antichain (fs : FS) (root : path) (out : list path) :
  findGitRepos fs root = Some out →
  NoDup out ∧ antichain out ∧
  ∀ r, r ∈ out →
    root `prefix_of` r ∧
    ∀ h nm, root `prefix_of` h → h ++ [nm] `prefix_of` r → ok_name nm.
Proof.
  intros (Hnd & Hac & H)%findGitRepos_found. split_and!; [done | done |].
  intros r Hr. destruct (H r Hr) as (s & -> & Hs & _). split.
  - by apply prefix_app_r.
  - intros h nm [t ->] Hp. rewrite <- (assoc_L (++)) in Hp.
    apply prefix_app_inv in Hp as [k ->].
    rewrite Forall_app, Forall_app in Hs. destruct Hs as [[_ Hnm] _].
    by apply (Forall_singleton ok_name nm).
Qed.

Lemma findGitRepos_antichain_witness :
  NoDup [["src"; "group"; "repoB"]; ["src"; "repoA"]] ∧
  antichain [["src"; "group"; "repoB"]; ["src"; "repoA"]].
Proof.
  pose proof (findGitRepos_antichain Sample.fs_scenario ["src"]
    [["src"; "group"; "repoB"]; ["src"; "repoA"]] ltac:(vm_compute; reflexivity)) as H.
  exact (conj (proj1 H) (proj1 (proj2 H))).
Defined.

(** C7 as stated fails for a directory that may be searched but not listed:
    it cannot be read, yet its [.git] is seen and it is recorded. *)
Lemma findGitRepos_records_unreadable :
  readdirSync Sample.fs_locked ["src"; "locked"] = None ∧
  findGitRepos Sample.fs_locked ["src"] = Some [["src"; "locked"]].
Proof. split; vm_compute; reflexivity. Qed.

(** C7, amended: [findGitRepos] always returns; on a root that does not
    exist it returns the empty list; a directory that cannot be read and
    shows no [.git] adds nothing, and the walk goes on with the entries
    after it. *)
Theorem findGitRepos_total_skips (fs : FS) :
  (∀ root, is_Some (findGitRepos fs root)) ∧
  (∀ root, existsSync fs root = false → findGitRepos fs root = Some []) ∧
  (∀ n d repos,
     marker fs d = false → readdirSync fs d = None →
     walk (S n) fs d repos = Some repos) ∧
  (∀ n d e es repos,
     descend e = true →
     marker fs (d ++ [name e]) = false → readdirSync fs (d ++ [name e]) = None →
     walk_entries (walk (S n) fs) d (e :: es) repos =
     walk_entries (walk (S n) fs) d es repos).
Proof.
  split_and!.
  - apply findGitRepos_total.
  - intros root H. unfold findGitRepos. by rewrite H.
  - intros n d repos Hm Hr. cbn [walk]. unfold marker in Hm. by rewrite Hm, Hr.
  - intros n d e es repos Hd Hm Hr. cbn [walk_entries walk].
    unfold marker in Hm. by rewrite Hd, Hm, Hr.
Qed.

Lemma findGitRepos_total_skips_witness :
  walk 1 Sample.fs_secret ["src"; "secret"] [] = Some [] ∧
  findGitRepos Sample.fs_secret ["src"] = Some [["src"; "repoA"]].
Proof.
  split.
  - exact (proj1 (proj2 (proj2 (findGitRepos_total_skips Sample.fs_secret)))
             0 ["src"; "secret"] [] ltac:(vm_compute; reflexivity)
             ltac:(vm_compute; reflexivity)).
  - vm_compute. reflexivity.
Defined.

(** C10 as stated fails for a [.git] that is a link to nowhere: the entry is
    there, but the directory is not recorded and the walk descends into
    it. *)
Lemma findGitRepos_dangling_marker :
  Sample.fs_dangling !! ["src"; "dang"; ".git"] = Some (Symlink ["nowhere"]) ∧
  findGitRepos Sample.fs_dangling ["src"] = Some [["src"; "dang"; "sub"]].
Proof. split; vm_compute; reflexivity. Qed.

(** C10, amended: every directory that the walk reaches and whose [.git]
    [existsSync] sees is recorded, and nothing beneath it is; a [.git] that
    is a plain file or a directory, in a directory that may be searched, is
    seen. *)
Theorem findGitRepos_marker_stops (fs : FS) (root d : path) (out : list path) :
  findGitRepos fs root = Some out → reach fs root d →
  (marker fs d = true →
     d ∈ out ∧ ∀ r, r ∈ out → d `prefix_of` r → r = d) ∧
  (∀ c pm i,
     resolve fs d = Some c → fs !! c = Some (Dir pm) → p_x pm = true →
     fs !! (c ++ [".git"]) = Some i → (∀ t, i ≠ Symlink t) →
     marker fs d = true).
Proof.
  intros Hout Hreach. split; [| intros; by eapply marker_entry].
  intros Hm.
  assert (d ∈ out) as Hd.
  { pose proof (reach_exists _ _ _ Hreach Hm) as Hex.
    unfold findGitRepos in Hout. rewrite Hex in Hout. cbn [negb] in Hout.
    by eapply walk_complete. }
  split; [done |].
  intros r Hr Hp. apply findGitRepos_found in Hout as (_ & Hac & _).
  symmetry. by apply Hac.
Qed.

Lemma findGitRepos_marker_stops_witness :
  ["src"; "group"; "repoB"] ∈ [["src"; "group"; "repoB"]; ["src"; "repoA"]].
Proof.
  assert (reach Sample.fs_scenario ["src"] ["src"; "group"; "repoB"]) as Hreach.
  { eapply (reach_down _ ["src"] _ (Dirent "group" Sample.dir));
      [vm_compute; reflexivity | vm_compute; reflexivity | | reflexivity |].
    { apply list_elem_of_In. simpl. tauto. }
    eapply (reach_down _ ["src"; "group"] _ (Dirent "repoB" Sample.dir));
      [vm_compute; reflexivity | vm_compute; reflexivity | | reflexivity |].
    { apply list_elem_of_In. simpl. tauto. }
    apply reach_here. }
  exact (proj1 (proj1 (findGitRepos_marker_stops Sample.fs_scenario ["src"]
    ["src"; "group"; "repoB"] [["src"; "group"; "repoB"]; ["src"; "repoA"]]
    ltac:(vm_compute; reflexivity) Hreach) ltac:(vm_compute; reflexivity))).
Defined.

(** ** Further properties of strings *)

Module TextFacts.


Lemma free_of_ext (f g : ascii → bool) (s : string) :
  (∀ a, f a = g a) → Str.free_of f s = Str.free_of g s.
Proof. intros H. induction s as [|a s IH]; simpl; [done |]. by rewrite H, IH. Qed.

Lemma free_of_app (f : ascii → bool) (s t : string) :
  Str.free_of f (s +:+ t) = Str.free_of f s && Str.free_of f t.
Proof.
  induction s as [|a s IH]; [done |]. rewrite app_cons. simpl.
  rewrite IH. by destruct (f a).
Qed.

Lemma split_app_sep (sep : ascii) (a b : string) :
  Str.split sep (a +:+ String sep b) = Str.split sep a ++ Str.split sep b.
Proof.
  induction a as [|c a IH].
  - rewrite app_nil_l. simpl. by rewrite Ascii.eqb_refl.
  - rewrite app_cons. simpl. rewrite IH.
    destruct (Ascii.eqb c sep); [done |].
    pose proof (split_nonempty sep a). by destruct (Str.split sep a).
Qed.

Lemma split_decompose (sep : ascii) (s : string) :
  ∃ h t, Str.split sep s = h :: t ∧ Str.free_of (Ascii.eqb sep) h = true ∧
    (t = [] ∧ s = h ∨ t ≠ [] ∧ s = h +:+ String sep (Str.join (String sep "") t)).
Proof.
  induction s as [|a s (h & t & E & Hf & Hs)]; simpl.
  - exists "", []. split_and!; try done. by left.
  - rewrite E. destruct (Ascii.eqb_spec a sep) as [->|Hne].
    + exists "", (h :: t). split_and!; try done. right. split; [done |].
      rewrite app_nil_l. f_equal. rewrite <- E. symmetry. apply join_split.
    + exists (String a h), t. split_and!; try done.
      * simpl. rewrite Hf. rewrite Ascii.eqb_sym, (eqb_false a sep) by done. done.
      * destruct Hs as [[-> ->]|[Ht ->]]; [by left | right].
        by rewrite app_cons.
Qed.

Lemma trim_start_spaces (p s : string) :
  all_space p = true → Str.trim_start (p +:+ s) = Str.trim_start s.
Proof.
  induction p as [|c p IH]; [done |]. unfold all_space. simpl.
  intros [Hc Hp]%andb_prop. rewrite negb_involutive in Hc.
  rewrite ?app_cons. simpl. rewrite Hc. by apply IH.
Qed.

Lemma trim_end_space_only (p : string) : all_space p = true → Str.trim_end p = "".
Proof.
  induction p as [|c p IH]; [done |]. unfold all_space. simpl.
  intros [Hc Hp]%andb_prop. rewrite negb_involutive in Hc.
  rewrite (IH Hp), Hc. done.
Qed.

Lemma trim_end_app (s t : string) :
  Str.trim_end (s +:+ t) =
  if bool_decide (Str.trim_end t = "") then Str.trim_end s else s +:+ Str.trim_end t.
Proof.
  induction s as [|c s IH].
  - rewrite !app_nil_l. by case_bool_decide.
  - rewrite app_cons. simpl. rewrite IH. case_bool_decide as Ht.
    + done.
    + rewrite app_cons. rewrite bool_decide_eq_false_2, andb_false_r; [done |].
      intros [_ ?]%app_empty. done.
Qed.

Lemma trim_start_length (s : string) : String.length (Str.trim_start s) ≤ String.length s.
Proof.
  induction s as [|c s IH]; simpl; [done |]. destruct (Str.is_space c); simpl; lia.
Qed.

Lemma trim_end_length (s : string) : String.length (Str.trim_end s) ≤ String.length s.
Proof.
  induction s as [|c s IH]; simpl; [done |].
  destruct (Str.is_space c && bool_decide (Str.trim_end s = "")); simpl; lia.
Qed.

Lemma tight_start (s : string) : tight s → Str.trim_start s = s.
Proof.
  unfold tight, Str.trim. intros H. destruct s as [|c s]; [done |]. simpl in *.
  destruct (Str.is_space c); [| done].
  pose proof (trim_end_length (Str.trim_start s)).
  pose proof (trim_start_length s).
  apply (f_equal String.length) in H. simpl in H. lia.
Qed.

Lemma tight_end (s : string) : tight s → Str.trim_end s = s.
Proof. intros H. pose proof (tight_start s H) as Hs. unfold tight, Str.trim in H. by rewrite Hs in H. Qed.

Lemma tight_first (c : ascii) (s : string) : tight (String c s) → Str.is_space c = false.
Proof.
  intros H%tight_start. simpl in H. destruct (Str.is_space c); [| done].
  pose proof (trim_start_length s). apply (f_equal String.length) in H. simpl in H. lia.
Qed.

Lemma trim_start_tight_app (s t : string) :
  tight s → s ≠ "" → Str.trim_start (s +:+ t) = s +:+ t.
Proof.
  intros H Hne. destruct s as [|c s]; [done |].
  rewrite app_cons. simpl. by rewrite (tight_first c s H).
Qed.

Lemma index_of_app (c : ascii) (s t : string) :
  Str.free_of (Ascii.eqb c) s = true →
  Str.index_of c (s +:+ String c t) = Some (String.length s).
Proof.
  induction s as [|a s IH]; intros H.
  - rewrite app_nil_l. simpl. by rewrite Ascii.eqb_refl.
  - simpl in H. apply andb_prop in H as [Ha Hs]. rewrite app_cons. simpl.
    rewrite Ascii.eqb_sym. apply negb_true_iff in Ha. rewrite Ha, (IH Hs). done.
Qed.


Lemma take_app (s t : string) : Str.take (String.length s) (s +:+ t) = s.
Proof.
  induction s as [|a s IH]; [by destruct t |]. rewrite app_cons. simpl. by rewrite IH.
Qed.

Lemma drop_app (s t : string) (c : ascii) :
  Str.drop (S (String.length s)) (s +:+ String c t) = t.
Proof.
  induction s as [|a s IH]; [by destruct t |]. rewrite app_cons.
  change (Str.drop (S (String.length s)) (s +:+ String c t) = t). apply IH.
Qed.

Lemma all_space_free (c : ascii) (p : string) :
  Str.is_space c = false → all_space p = true → Str.free_of (Ascii.eqb c) p = true.
Proof.
  intros Hc. induction p as [|a p IH]; [done |]. unfold all_space. simpl.
  intros [Ha Hp]%andb_prop. rewrite negb_involutive in Ha.
  rewrite (IH Hp), andb_true_r. apply negb_true_iff, Ascii.eqb_neq. by intros ->; congruence.
Qed.

Lemma trim_padded (p1 s p2 : string) :
  all_space p1 = true → all_space p2 = true → tight s →
  Str.trim (p1 +:+ s +:+ p2) = s.
Proof.
  intros H1 H2 Hs. unfold Str.trim. rewrite trim_start_spaces by done.
  destruct s as [|c s].
  - rewrite app_nil_l. rewrite <- (app_nil_r p2) at 1.
    rewrite trim_start_spaces by done. done.
  - rewrite trim_start_tight_app by done. rewrite trim_end_app.
    rewrite (trim_end_space_only p2 H2), bool_decide_eq_true_2 by done.
    by apply tight_end.
Qed.

Lemma startsWith_cons (a c : ascii) (r r' : string) :
  Str.startsWith (String a "") (String c r) = Str.startsWith (String a "") (String c r').
Proof. unfold Str.startsWith. simpl. by destruct (ascii_dec a c), r, r'. Qed.



End TextFacts.

(** ** Further properties of the matcher and of the parser *)

Module MatchFacts.
Import Regex TextFacts.


Lemma plus_greedy_inv {A : Type} (k : cls) (s : string)
    (κ : string → string → option A) (x : A) :
  plus_greedy k s κ = Some x →
  ∃ mt rest, s = mt +:+ rest ∧ mt ≠ "" ∧
    Str.free_of (λ a, negb (cls_test k a)) mt = true ∧ κ mt rest = Some x.
Proof.
  revert κ. induction s as [|a s IH]; intros κ; simpl; [done |].
  destruct (cls_test k a) eqn:Ea; [| done].
  destruct (plus_greedy k s _) as [y|] eqn:E.
  - intros [= ->]. apply IH in E as (mt & rest & -> & _ & Hf & Hk).
    exists (String a mt), rest. split_and!; try done. simpl. by rewrite Ea, Hf.
  - intros Hk. exists (String a ""), s. split_and!; try done. simpl. by rewrite Ea.
Qed.

Lemma plus_lazy_inv {A : Type} (k : cls) (s : string)
    (κ : string → string → option A) (x : A) :
  plus_lazy k s κ = Some x →
  ∃ mt rest, s = mt +:+ rest ∧ mt ≠ "" ∧
    Str.free_of (λ a, negb (cls_test k a)) mt = true ∧ κ mt rest = Some x.
Proof.
  revert κ. induction s as [|a s IH]; intros κ; simpl; [done |].
  destruct (cls_test k a) eqn:Ea; [| done].
  destruct (κ (String a "") s) as [y|] eqn:E.
  - intros [= ->]. exists (String a ""), s. split_and!; try done. simpl. by rewrite Ea.
  - intros (mt & rest & -> & _ & Hf & Hk)%IH.
    exists (String a mt), rest. split_and!; try done. simpl. by rewrite Ea, Hf.
Qed.

Lemma repo_of_Some (body rp : string) :
  repo_of body = Some rp →
  rp ≠ "" ∧ Str.free_of is_line_terminator rp = true ∧
  ∃ rest, body = rp +:+ rest ∧ tail_ok rest = true.
Proof.
  unfold repo_of. intros (mt & rest & -> & Hne & Hf & Hk)%plus_lazy_inv.
  destruct (tail_ok rest) eqn:Et; [| done]. injection Hk as ->.
  split_and!; [done | | by exists rest].
  erewrite free_of_ext; [exact Hf |]. intros a. cbn [cls_test].
  by rewrite negb_involutive.
Qed.

Lemma exec_ssh_inv (url : string) (m : list string) :
  exec sshRe url = Some m →
  ∃ host body, url = ssh_url host body ∧ host ≠ "" ∧
    Str.free_of (Ascii.eqb ":") host = true.
Proof.
  unfold exec, sshRe. seq_step. cbn [run].
  destruct (strip "git@" url) as [r1|] eqn:E1; [| done].
  apply strip_Some in E1 as ->. seq_step. cbn [run].
  intros H. apply plus_greedy_inv in H as (host & r2 & -> & Hne & Hf & Hk).
  revert Hk. seq_step. cbn [run].
  destruct (strip ":" r2) as [r3|] eqn:E3; [| done].
  apply strip_Some in E3 as ->. intros _.
  exists host, r3. split_and!; [done | done |].
  erewrite free_of_ext; [exact Hf |]. intros a. cbn [cls_test].
  rewrite negb_involutive. apply Ascii.eqb_sym.
Qed.

Lemma exec_web_inv (url : string) (m : list string) :
  exec httpsRe url = Some m →
  ∃ scheme host body, web_scheme scheme = true ∧ url = web_url scheme host body ∧
    host ≠ "" ∧ Str.free_of (Ascii.eqb "/") host = true.
Proof.
  unfold exec, httpsRe. seq_step. cbn [run].
  destruct (strip "http" url) as [r1|] eqn:E1; [| done].
  apply strip_Some in E1 as ->. seq_step. cbn [run].
  assert (∀ r (κ : cont) caps m',
    run (seq [Lit "://"; Group (Plus (Not "/")); Lit "/"; Group (LazyPlus Any);
              Opt (Lit ".git"); Eos]) r caps κ = Some m' →
    ∃ host body, r = "://" +:+ host +:+ "/" +:+ body ∧ host ≠ "" ∧
      Str.free_of (Ascii.eqb "/") host = true) as Hrest.
  { intros r κ caps m'. seq_step. cbn [run].
    destruct (strip "://" r) as [r2|] eqn:E2; [| done].
    apply strip_Some in E2 as ->. seq_step. cbn [run].
    intros H. apply plus_greedy_inv in H as (host & r3 & -> & Hne & Hf & Hk).
    revert Hk. seq_step. cbn [run].
    destruct (strip "/" r3) as [r4|] eqn:E4; [| done].
    apply strip_Some in E4 as ->. intros _.
    exists host, r4. split_and!; [done | done |].
    erewrite free_of_ext; [exact Hf |]. intros a. cbn [cls_test].
    rewrite negb_involutive. apply Ascii.eqb_sym. }
  destruct (strip "s" r1) as [r2|] eqn:E2.
  - apply strip_Some in E2 as ->.
    match goal with |- match ?X with _ => _ end = _ → _ => destruct X eqn:EX end.
    + intros _. apply Hrest in EX as (host & body & -> & Hne & Hf).
      exists "https", host, body. split_and!; try done.
    + intros (host & body & E & Hne & Hf)%Hrest.
      exists "http", host, body. by split_and!.
  - intros (host & body & -> & Hne & Hf)%Hrest.
    exists "http", host, body. by split_and!.
Qed.

Lemma segments_of_cases (rp : string) :
  Str.free_of (Ascii.eqb "/") (org (segments_of rp)) = true ∧
  (rp = org (segments_of rp) ∧ projectPath (segments_of rp) = "" ∨
   rp = org (segments_of rp) +:+ "/" +:+ projectPath (segments_of rp)).
Proof.
  unfold segments_of. destruct (split_decompose "/" rp) as (h & t & -> & Hf & Hs).
  cbn [head default org projectPath]. change (drop 1 (h :: t)) with t.
  split; [done |]. destruct Hs as [[-> ->]|[_ ->]]; [by left | by right].
Qed.

(** The parser ends by returning, with the world as it was, or by giving
    up. *)
Lemma parseGitUrl_ends (url : string) (w : world) :
  (∃ p, parseGitUrl url w = (Return p, w)) ∨
  parseGitUrl url w = (Exit 1, World (w_fs w) (w_out w ++ parse_error url)).
Proof.
  unfold parseGitUrl. destruct w as [fs out]. rewrite bind_run.
  destruct (exec sshRe url) as [m|]; [left; by eexists |].
  destruct (exec httpsRe url) as [m|]; [left; by eexists |].
  right. step. cbn [w_fs w_out]. unfold parse_error. by rewrite <- (assoc_L (++)).
Qed.

(** What the parser returns comes from an identifier of one of the two
    shapes. *)
Lemma parseGitUrl_return_inv (url : string) (w w' : world) (p : parsed) :
  parseGitUrl url w = (Return p, w') →
  ∃ host body rp,
    (url = ssh_url host body ∧ Str.free_of (Ascii.eqb ":") host = true ∨
     ∃ scheme, web_scheme scheme = true ∧ url = web_url scheme host body ∧
               Str.free_of (Ascii.eqb "/") host = true) ∧
    host ≠ "" ∧ repo_of body = Some rp ∧ p = segments_of rp ∧ w' = w.
Proof.
  destruct (exec sshRe url) as [m|] eqn:Es.
  - destruct (exec_ssh_inv _ _ Es) as (host & body & -> & Hne & Hf).
    pose proof (exec_ssh_group host body Hne Hf) as Hg. rewrite Es in Hg.
    symmetry in Hg.
    rewrite (parse_ssh_some host body (group m 2) w Hne Hf Hg). intros [= <- <-].
    exists host, body, (group m 2). split_and!; try done. by left.
  - destruct (exec httpsRe url) as [m|] eqn:Ew.
    + destruct (exec_web_inv _ _ Ew) as (scheme & host & body & Hs & -> & Hne & Hf).
      pose proof (exec_web_group scheme host body Hs Hne Hf) as Hg. rewrite Ew in Hg.
      symmetry in Hg.
      rewrite (parse_web_some scheme host body (group m 2) w Hs Hne Hf Hg).
      intros [= <- <-].
      exists host, body, (group m 2). split_and!; try done. right. by exists scheme.
    + unfold parseGitUrl. rewrite Es, Ew. rewrite bind_run. destruct w. by step.
Qed.

End MatchFacts.

(** ** Properties of the configuration *)

Module EnvFacts.
Import TextFacts.


Lemma parse_env_app (t1 t2 : string) :
  parse_env (t1 +:+ nl +:+ t2) = foldl env_line (parse_env t1) (Str.split "010" t2).
Proof.
  unfold parse_env, nl. rewrite app_cons, app_nil_l, split_app_sep. apply foldl_app.
Qed.


Lemma segments_nil (base : path) : Path.segments base "" = base.
Proof.
  unfold Path.segments. simpl. unfold Path.norm_step. by rewrite decide_True by auto.
Qed.

Section Config.
Variable VAULT_ROOT : path.


Lemma loadEnv_run (fs : FS) (out : list event) :
  loadEnv VAULT_ROOT (World fs out) =
  if existsSync fs (ENV_FILE VAULT_ROOT) then
    match readFileSync fs (ENV_FILE VAULT_ROOT) with
    | Some text => (Return (parse_env text), World fs out)
    | None => (Throw "readFileSync", World fs out)
    end
  else (Exit 1, World fs (out ++ env_missing VAULT_ROOT)).
Proof.
  unfold loadEnv. step. destruct (existsSync fs (ENV_FILE VAULT_ROOT)); cbn [negb].
  - by destruct (readFileSync fs (ENV_FILE VAULT_ROOT)).
  - step. unfold env_missing. by rewrite <- (assoc_L (++)).
Qed.

Lemma getSrcDirs_run (env : gmap string string) (fs : FS) (out : list event) :
  getSrcDirs VAULT_ROOT env (World fs out) =
  match env !! "SOURCES" with
  | Some s =>
      if bool_decide (s = "") then (Exit 1, World fs (out ++ sources_missing))
      else (Return (map (λ s, Path.resolve VAULT_ROOT (Str.trim s)) (Str.split "," s)),
            World fs out)
  | None => (Exit 1, World fs (out ++ sources_missing))
  end.
Proof.
  unfold getSrcDirs. destruct (env !! "SOURCES") as [s|]; [| by step].
  case_bool_decide; [by step | done].
Qed.

Lemma readFileSync_exists (fs : FS) (p : path) (text : string) :
  readFileSync fs p = Some text → existsSync fs p = true.
Proof.
  unfold readFileSync. destruct (resolve fs p) as [c|] eqn:E; [| done].
  intros _. apply existsSync_true. by rewrite E.
Qed.

Lemma with_config {A : Type} (k : list path → M A) (fs : FS) (out : list event)
    (srcDirs : list path) :
  configured VAULT_ROOT fs = Some srcDirs →
  (env ← loadEnv VAULT_ROOT; srcDirs ← getSrcDirs VAULT_ROOT env; k srcDirs)
    (World fs out) = k srcDirs (World fs out).
Proof.
  unfold configured. intros H. rewrite bind_run, loadEnv_run.
  destruct (readFileSync fs (ENV_FILE VAULT_ROOT)) as [text|] eqn:Et; [| done].
  rewrite (readFileSync_exists _ _ _ Et). simpl in H.
  rewrite bind_run, getSrcDirs_run.
  destruct (parse_env text !! "SOURCES") as [s|]; [| done]. simpl in H.
  case_bool_decide; [done |]. by injection H as <-.
Qed.

Lemma without_config {A : Type} (k : list path → M A) (fs : FS) (out : list event) :
  configured VAULT_ROOT fs = None →
  ∃ r out',
    (env ← loadEnv VAULT_ROOT; srcDirs ← getSrcDirs VAULT_ROOT env; k srcDirs)
      (World fs out) = (r, World fs (out ++ out')) ∧
    (r = Throw "readFileSync" ∧ out' = [] ∧ existsSync fs (ENV_FILE VAULT_ROOT) = true ∨
     r = Exit 1 ∧ out' = env_missing VAULT_ROOT ∧ existsSync fs (ENV_FILE VAULT_ROOT) = false ∨
     r = Exit 1 ∧ out' = sources_missing ∧ existsSync fs (ENV_FILE VAULT_ROOT) = true).
Proof.
  unfold configured. intros H. rewrite bind_run, loadEnv_run.
  destruct (existsSync fs (ENV_FILE VAULT_ROOT)) eqn:Ex.
  - destruct (readFileSync fs (ENV_FILE VAULT_ROOT)) as [text|] eqn:Et.
    + simpl in H. rewrite bind_run, getSrcDirs_run.
      destruct (parse_env text !! "SOURCES") as [s|]; simpl in H.
      * case_bool_decide; [| done]. eexists _, _. split; [done |]. auto.
      * eexists _, _. split; [done |]. auto.
    + exists (Throw "readFileSync"), []. rewrite (right_id_L [] (++)). auto.
  - eexists _, _. split; [done |]. auto.
Qed.

Lemma getSrcDirs_nonempty (env : gmap string string) (w w' : world) (l : list path) :
  getSrcDirs VAULT_ROOT env w = (Return l, w') → l ≠ [].
Proof.
  unfold getSrcDirs. destruct (env !! "SOURCES") as [s|]; [| done].
  case_bool_decide; [done |]. intros [= <- _].
  pose proof (split_nonempty "," s). by destruct (Str.split "," s).
Qed.

End Config.

End EnvFacts.

(** ** Further properties of paths and of discovery *)

Module WalkFacts.


Lemma drop_common_app (base s : path) : Path.drop_common base (base ++ s) = ([], s).
Proof.
  induction base as [|x base IH]; simpl; [by destruct s |]. by rewrite decide_True.
Qed.

Lemma split_join (s : list string) :
  s ≠ [] → forallb valid_name s = true →
  Str.split "/" (Str.join "/" s) = s.
Proof.
  induction s as [|x s IH]; [done |]. intros _ H. simpl in H.
  apply andb_prop in H as [Hx Hs]. unfold valid_name in Hx.
  apply andb_prop in Hx as [Hx _].
  destruct s as [|y s].
  - unfold Str.join. simpl. by apply split_free.
  - rewrite join_cons. change ("/" +:+ ?t) with (String "/" t).
    rewrite split_first by done. by rewrite IH.
Qed.

Lemma fold_norm_step (base s : path) :
  forallb valid_name s = true → fold_left Path.norm_step s base = base ++ s.
Proof.
  revert base. induction s as [|x s IH]; intros base H; simpl.
  - by rewrite (right_id_L [] (++)).
  - simpl in H. apply andb_prop in H as [Hx Hs]. unfold valid_name in Hx.
    apply andb_prop in Hx as [_ Hx]. apply negb_true_iff, bool_decide_eq_false_1 in Hx.
    rewrite IH by done. unfold Path.norm_step.
    rewrite decide_False, decide_False.
    + by rewrite <- (assoc_L (++)).
    + intros ->. apply Hx. set_solver.
    + intros [-> | ->]; apply Hx; set_solver.
Qed.

Lemma walk_entries_sound (fs : FS) (rec : path → list path → option (list path))
    (d : path) (es all : list dirent) (repos out : list path) :
  (∀ d' repos' out', rec d' repos' = Some out' →
     ∀ r, r ∈ out' → r ∈ repos' ∨ reach fs d' r ∧ marker fs r = true) →
  walk_entries rec d es repos = Some out →
  ∀ r, r ∈ out → r ∈ repos ∨
    ∃ e, e ∈ es ∧ descend e = true ∧ reach fs (d ++ [name e]) r ∧ marker fs r = true.
Proof.
  intros Hrec. revert repos. induction es as [|e es IH]; intros repos; simpl.
  - intros [= <-] r Hr. by left.
  - destruct (descend e) eqn:Ed.
    + destruct (rec (d ++ [name e]) repos) as [repos1|] eqn:E1; [| done].
      intros E2 r Hr. destruct (IH _ E2 r Hr) as [Hr1|(e' & He' & Hd' & Hreach & Hm)].
      * destruct (Hrec _ _ _ E1 r Hr1) as [?|[Hreach Hm]]; [by left | right].
        exists e. split_and!; try done. left.
      * right. exists e'. split_and!; try done. by right.
    + intros E2 r Hr. destruct (IH _ E2 r Hr) as [?|(e' & He' & Hd' & Hreach & Hm)];
        [by left | right].
      exists e'. split_and!; try done. by right.
Qed.

Lemma walk_sound (fs : FS) (n : nat) (d : path) (repos out : list path) :
  walk n fs d repos = Some out →
  ∀ r, r ∈ out → r ∈ repos ∨ reach fs d r ∧ marker fs r = true.
Proof.
  revert d repos out. induction n as [|n IH]; intros d repos out; [done |].
  cbn [walk]. destruct (existsSync fs (d ++ [".git"])) eqn:Em.
  - intros [= <-] r [Hr| ->%list_elem_of_singleton]%elem_of_app; [by left | right].
    split; [apply reach_here | done].
  - destruct (readdirSync fs d) as [es|] eqn:Er.
    + intros Hw r Hr.
      destruct (walk_entries_sound fs _ d es es repos out IH Hw r Hr)
        as [?|(e & He & Hd & Hreach & Hm)]; [by left | right].
      split; [| done]. by eapply reach_down.
    + intros [= <-] r Hr. by left.
Qed.

End WalkFacts.


(** ** How the commands can end *)

Module SafeFacts.

Section Safe.
Context {A B : Type} (P : string → Prop) (E : nat → Prop).

Lemma safe_ret (a : A) : safe P E (mret a).
Proof. by intros w. Qed.

Lemma safe_bind (m : M A) (f : A → M B) :
  safe P E m → (∀ a, safe P E (f a)) → safe P E (m ≫= f).
Proof.
  intros Hm Hf w. rewrite bind_run. specialize (Hm w).
  destruct (m w) as [[a|o|c|] w']; simpl in *; try done; apply Hf.
Qed.

Lemma safe_bind_post (Q : A → Prop) (m : M A) (f : A → M B) :
  safe P E m → (∀ w a w', m w = (Return a, w') → Q a) →
  (∀ a, Q a → safe P E (f a)) → safe P E (m ≫= f).
Proof.
  intros Hm HQ Hf w. rewrite bind_run. specialize (Hm w). specialize (HQ w).
  destruct (m w) as [[a|o|c|] w']; simpl in *; try done. by eapply Hf, HQ.
Qed.

Lemma safe_emit (e : event) : safe P E (emit e).
Proof. by intros w. Qed.

Lemma safe_exit (c : nat) : E c → safe P E (@exit A c).
Proof. by intros Hc w. Qed.

Lemma safe_get_fs : safe P E get_fs.
Proof. by intros w. Qed.

Lemma safe_fs_update (o : string) (g : FS → option FS) :
  P o → safe P E (fs_update o g).
Proof. intros Ho w. unfold fs_update. by destruct (g (w_fs w)). Qed.

Lemma safe_fs_try (o : string) (g : FS → FS * bool) :
  P o → safe P E (fs_try o g).
Proof. intros Ho w. unfold fs_try. by destruct (g (w_fs w)) as [fs' []]. Qed.

Lemma safe_try_catch (body handler : M A) :
  safe (λ _, True) E body → safe P E handler → safe P E (try_catch body handler).
Proof.
  intros Hb Hh w. unfold try_catch. specialize (Hb w).
  destruct (body w) as [[a|o|c|] w']; simpl in *; try done; apply Hh.
Qed.

Lemma safe_for_of (l : list A) (acc : B) (body : B → A → M B) :
  (∀ b a, safe P E (body b a)) → safe P E (for_of l acc body).
Proof.
  intros Hb. revert acc. induction l as [|x l IH]; intros acc; simpl.
  - by intros w.
  - intros w. rewrite bind_run. specialize (Hb acc x w).
    destruct (body acc x w) as [[a|o|c|] w']; simpl in *; try done; apply IH.
Qed.

Lemma safe_gitExec (git : git_cmd → FS → bool * FS) (c : git_cmd) :
  safe P E (gitExec git c).
Proof. intros w. unfold gitExec. by destruct (git c (w_fs w)). Qed.

End Safe.

(** One step of a proof that a command is safe, read off its syntax. *)
Ltac safe_step :=
  match goal with
  | |- safe _ _ (mret _) => apply safe_ret
  | |- safe _ _ (emit _) => apply safe_emit
  | |- safe _ _ get_fs => apply safe_get_fs
  | |- safe _ _ (gitExec _ _) => apply safe_gitExec
  | |- safe _ _ (exit _) => apply safe_exit; reflexivity
  | |- safe _ _ (_ ≫= _) => apply safe_bind; [| intros ?]
  | |- safe _ _ (for_of _ _ _) => apply safe_for_of; intros ? ?
  | |- safe _ _ (if ?b then _ else _) => destruct b
  | |- safe _ _ (match ?x with _ => _ end) => destruct x
  end.

Ltac safe_tac := repeat safe_step.

Lemma safe_parseGitUrl (P : string → Prop) (url : string) :
  safe P (eq 1) (parseGitUrl url).
Proof. unfold parseGitUrl. safe_tac. Qed.

Lemma safe_ensureLink (P : string → Prop) (E : nat → Prop) (platform : string)
    (link target : path) :
  P "mkdirSync" → safe P E (ensureLink platform link target).
Proof.
  intros HP. unfold ensureLink. safe_tac.
  - by apply safe_fs_try.
  - apply safe_try_catch; safe_tac; by apply safe_fs_update.
Qed.

Lemma safe_usage (P : string → Prop) (E : nat → Prop) : safe P E usage.
Proof. unfold usage. safe_tac. Qed.

Section Commands.
Variable VAULT_ROOT : path.
Variable platform : string.
Variable git : git_cmd → FS → bool * FS.
Variable shell : string → FS → bool * FS.

Lemma safe_loadEnv : safe escaping (eq 1) (loadEnv VAULT_ROOT).
Proof.
  unfold loadEnv. safe_tac. intros w. simpl. by left.
Qed.

Lemma safe_getSrcDirs (env : gmap string string) :
  safe escaping (eq 1) (getSrcDirs VAULT_ROOT env).
Proof. unfold getSrcDirs. safe_tac. Qed.

Lemma safe_execSync (E : nat → Prop) (cmd : string) :
  safe (λ _, True) E (execSync shell cmd).
Proof. intros w. unfold execSync. by destruct (shell cmd (w_fs w)) as [[] fs']. Qed.

Lemma safe_hasCommand (P : string → Prop) (E : nat → Prop) (name : string) :
  safe P E (hasCommand platform shell name).
Proof.
  unfold hasCommand. apply safe_try_catch; [| apply safe_ret].
  apply safe_bind; [apply safe_execSync | intros _; apply safe_ret].
Qed.

Lemma safe_ensureTools (P : string → Prop) : safe P (eq 1) (ensureTools platform shell).
Proof.
  unfold ensureTools. apply safe_for_of. intros [] [cmd install].
  unfold ensure_tool. apply safe_bind; [apply safe_hasCommand | intros present].
  destruct present; [apply safe_ret |]. destruct install as [install|]; safe_tac.
  apply safe_try_catch; safe_tac. apply safe_execSync.
Qed.

Lemma safe_collect (P : string → Prop) (E : nat → Prop)
    (all : list (path * path)) (srcDir : path) :
  safe P E (collect all srcDir).
Proof.
  unfold collect. apply safe_bind; [apply safe_get_fs | intros fs].
  destruct (findGitRepos_total fs srcDir) as [repos ->]. apply safe_ret.
Qed.

Lemma safe_pull_one (P : string → Prop) (E : nat → Prop) (n : nat) (r : path * path) :
  P "mkdirSync" → safe P E (pull_one VAULT_ROOT platform git n r).
Proof.
  intros HP. destruct r as [repoPath srcDir]. unfold pull_one. safe_tac.
  all: by apply safe_ensureLink.
Qed.

Lemma safe_status_root (P : string → Prop) (E : nat → Prop) (t : tally) (srcDir : path) :
  safe P E (status_root VAULT_ROOT t srcDir).
Proof.
  unfold status_root. apply safe_bind; [apply safe_get_fs | intros fs].
  destruct (findGitRepos_total fs srcDir) as [repos ->].
  unfold status_one. safe_tac.
Qed.

Lemma safe_cmdPull_with (P : string → Prop) (E : nat → Prop) (srcDirs : list path) :
  P "mkdirSync" → safe P E (cmdPull_with VAULT_ROOT platform git srcDirs).
Proof.
  intros HP. unfold cmdPull_with. safe_tac.
  - apply safe_collect.
  - by apply safe_pull_one.
Qed.

Lemma safe_cmdAdd_with (srcDirs : list path) (url : string) (lo : option string) :
  srcDirs ≠ [] →
  safe escaping (eq 1) (cmdAdd_with VAULT_ROOT platform git srcDirs url lo).
Proof.
  intros Hne. unfold cmdAdd_with. destruct srcDirs as [|base rest]; [done |].
  cbn [head]. safe_tac.
  all: try (apply safe_parseGitUrl).
  all: try (apply safe_ensureLink; by right).
  all: try (apply safe_fs_try; by right).
Qed.

Lemma safe_cmdStatus_with (P : string → Prop) (E : nat → Prop) (srcDirs : list path) :
  safe P E (cmdStatus_with VAULT_ROOT platform srcDirs).
Proof.
  unfold cmdStatus_with. safe_tac. apply safe_status_root.
Qed.

Lemma safe_cmdPull : safe escaping (eq 1) (cmdPull VAULT_ROOT platform git).
Proof.
  unfold cmdPull. apply safe_bind; [apply safe_loadEnv | intros env].
  apply safe_bind; [apply safe_getSrcDirs | intros srcDirs].
  apply safe_cmdPull_with. by right.
Qed.

Lemma safe_cmdStatus : safe escaping (eq 1) (cmdStatus VAULT_ROOT platform).
Proof.
  unfold cmdStatus. apply safe_bind; [apply safe_loadEnv | intros env].
  apply safe_bind; [apply safe_getSrcDirs | intros srcDirs]. apply safe_cmdStatus_with.
Qed.

Lemma safe_cmdAdd (url : string) (lo : option string) :
  safe escaping (eq 1) (cmdAdd VAULT_ROOT platform git url lo).
Proof.
  unfold cmdAdd. apply safe_bind; [apply safe_loadEnv | intros env].
  apply (safe_bind_post _ _ (λ l, l ≠ [])); [apply safe_getSrcDirs | |].
  - intros w a w'. apply EnvFacts.getSrcDirs_nonempty.
  - intros srcDirs Hne. by apply safe_cmdAdd_with.
Qed.

(** The dispatch of the command line, with its first test named. *)
Lemma main_run (args : list string) :
  main VAULT_ROOT platform git shell args =
  if wants_help args then usage;; exit 0
  else
    ensureTools platform shell;;
    if bool_decide (args !! 0 = Some "pull") then cmdPull VAULT_ROOT platform git
    else if bool_decide (args !! 0 = Some "add") then
      if negb (truthy (args !! 1)) then emit (Error "Missing: Git URL");; exit 1
      else
        cmdAdd VAULT_ROOT platform git (default "" (args !! 1))
               (match fst <$> list_find (λ a, a = "--link") args with
                | Some i => args !! (S i) | None => None end)
    else if bool_decide (args !! 0 = Some "status") then cmdStatus VAULT_ROOT platform
    else
      emit (Error ("Unknown: " +:+ default "" (args !! 0) +:+ " (--help for help)"));;
      exit 1.
Proof. reflexivity. Qed.

End Commands.

End SafeFacts.

(** ** Running the loops of the commands *)

Module LoopFacts.

Section Loops.
Variable VAULT_ROOT : path.
Variable platform : string.
Variable git : git_cmd → FS → bool * FS.
Variable shell : string → FS → bool * FS.

Lemma n_linked_le (fs : FS) (l : list (path * path)) :
  n_linked VAULT_ROOT fs l ≤ length l.
Proof. apply length_filter. Qed.

Lemma bump_nil (t : tally) (fs : FS) : bump VAULT_ROOT t fs [] = t.
Proof. destruct t. unfold bump, n_linked. simpl. f_equal; lia. Qed.

Lemma bump_app (t : tally) (fs : FS) (l1 l2 : list (path * path)) :
  bump VAULT_ROOT (bump VAULT_ROOT t fs l1) fs l2 = bump VAULT_ROOT t fs (l1 ++ l2).
Proof.
  unfold bump, n_linked. simpl. rewrite filter_app, !length_app.
  pose proof (n_linked_le fs l1). pose proof (n_linked_le fs l2).
  unfold n_linked in *. f_equal; lia.
Qed.

Lemma status_one_run (srcDir : path) (t : tally) (r : path) (fs : FS) (out : list event) :
  status_one VAULT_ROOT srcDir t r (World fs out) =
  (Return (bump VAULT_ROOT t fs [(srcDir, r)]),
   World fs (out ++ [status_line VAULT_ROOT fs (srcDir, r)])).
Proof.
  unfold status_one. repeat step. unfold bump, n_linked, status_line, linked.
  rewrite filter_cons, filter_nil. cbn [fst snd].
  destruct (existsSync fs _); simpl; rewrite ?Nat.add_0_r, !Nat.add_1_r; reflexivity.
Qed.

Lemma status_inner (srcDir : path) (repos : list path) (t : tally) (fs : FS)
    (out : list event) :
  for_of repos t (status_one VAULT_ROOT srcDir) (World fs out) =
  (Return (bump VAULT_ROOT t fs (pair srcDir <$> repos)),
   World fs (out ++ map (status_line VAULT_ROOT fs) (pair srcDir <$> repos))).
Proof.
  revert t out. induction repos as [|r repos IH]; intros t out.
  - simpl. by rewrite bump_nil, (right_id_L [] (++)).
  - cbn [for_of]. rewrite bind_run, status_one_run, IH, bump_app.
    by rewrite <- (assoc_L (++)).
Qed.

Lemma status_outer (srcDirs : list path) (t : tally) (fs : FS) (out : list event) :
  for_of srcDirs t (status_root VAULT_ROOT) (World fs out) =
  (Return (bump VAULT_ROOT t fs (discovered fs srcDirs)),
   World fs (out ++ map (status_line VAULT_ROOT fs) (discovered fs srcDirs))).
Proof.
  revert t out. induction srcDirs as [|d srcDirs IH]; intros t out.
  - simpl. by rewrite bump_nil, (right_id_L [] (++)).
  - cbn [for_of]. rewrite bind_run. unfold status_root at 1. step.
    destruct (findGitRepos_total fs d) as [repos E]. rewrite E, status_inner, IH.
    rewrite bump_app. unfold discovered. cbn [mbind list_bind]. fold (@mbind list _).
    rewrite E. cbn [default]. by rewrite map_app, <- (assoc_L (++)).
Qed.

Lemma cmdStatus_with_run (srcDirs : list path) (fs : FS) (out : list event) :
  cmdStatus_with VAULT_ROOT platform srcDirs (World fs out) =
  (Return (), World fs (out ++ status_report VAULT_ROOT platform fs srcDirs)).
Proof.
  unfold cmdStatus_with. do 3 step.
  rewrite bind_run, status_outer. do 2 step.
  unfold status_report, bump. cbn [t_ok t_missing t_total].
  rewrite !Nat.add_0_l. f_equal. f_equal.
  rewrite <- !(assoc_L (++)). reflexivity.
Qed.






Lemma collect_run (srcDirs : list path) (acc : list (path * path)) (w : world) :
  for_of srcDirs acc collect w =
  (Return (acc ++ (prod_swap <$> discovered (w_fs w) srcDirs)), w).
Proof.
  destruct w as [fs out]. cbn [w_fs]. revert acc.
  induction srcDirs as [|d srcDirs IH]; intros acc.
  - simpl. by rewrite (right_id_L [] (++)).
  - cbn [for_of]. rewrite bind_run.
    destruct (findGitRepos_total fs d) as [repos E].
    assert (collect acc d (World fs out)
            = (Return (acc ++ map (λ r, (r, d)) repos), World fs out)) as ->.
    { unfold collect. step. by rewrite E. }
    rewrite IH.
    unfold discovered. cbn [mbind list_bind]. fold (@mbind list _).
    rewrite E. cbn [default]. rewrite fmap_app, <- (assoc_L (++)).
    do 3 f_equal. rewrite <- list_fmap_compose. done.
Qed.

Lemma pull_one_count (n n' : nat) (r : path * path) (w w' : world) :
  pull_one VAULT_ROOT platform git n r w = (Return n', w') → n ≤ n' ≤ S n.
Proof.
  destruct r as [repoPath srcDir], w as [fs out]. unfold pull_one.
  step. destruct (git _ fs) as [ok fs1].
  intros H.
  assert (∀ (m : M unit) w1 w2,
    (m ≫= λ _, (ensureLink platform (Path.join VAULT_ROOT (Path.relative srcDir repoPath))
                  repoPath ≫= λ status,
       if decide (status = created)
       then emit (Log ("  " +:+ LINK_TYPE platform +:+ " created."));; mret (S n)
       else mret n)) w1 = (Return n', w2) → n ≤ n' ≤ S n) as Hgen.
  { clear. intros m w1 w2. rewrite bind_run. destruct (m w1) as [[[]|o|c|] w3]; try done.
    rewrite bind_run. destruct (ensureLink _ _ _ w3) as [[s|o|c|] w4]; try done.
    destruct (decide (s = created)).
    - destruct w4. step. intros [= <- _]. lia.
    - intros [= <- _]. lia. }
  exact (Hgen _ _ _ H).
Qed.

Lemma pull_loop_count (l : list (path * path)) (n n' : nat) (w w' : world) :
  for_of l n (pull_one VAULT_ROOT platform git) w = (Return n', w') →
  n ≤ n' ≤ n + length l.
Proof.
  revert n w. induction l as [|r l IH]; intros n w.
  - simpl. intros [= <- _]. lia.
  - cbn [for_of]. rewrite bind_run.
    destruct (pull_one _ _ _ n r w) as [[n1|o|c|] w1] eqn:E1; try done.
    apply pull_one_count in E1. intros H%IH. simpl. lia.
Qed.

End Loops.

End LoopFacts.

(** ** Further properties of the program *)

Import TextFacts MatchFacts EnvFacts WalkFacts SafeFacts LoopFacts.

(** *** The parser *)

(** X1: [parseGitUrl] either succeeds or gives up, and nothing in between.
    It succeeds only on an identifier of one of the two shapes
    ([git@host:body], or [http://host/body] and [https://host/body]) with a
    non-empty host; it then returns the first segment of the repository
    path as the organization and the rest as the project path, prints
    nothing and leaves the world as it was.  Otherwise it prints its two
    lines of errors and exits with code 1. *)
Theorem parseGitUrl_all_or_nothing (url : string) (w : world) :
  (∃ host body rp,
     (url = ssh_url host body ∧ Str.free_of (Ascii.eqb ":") host = true ∨
      ∃ scheme, web_scheme scheme = true ∧ url = web_url scheme host body ∧
                Str.free_of (Ascii.eqb "/") host = true) ∧
     host ≠ "" ∧ repo_of body = Some rp ∧
     parseGitUrl url w = (Return (segments_of rp), w)) ∨
  parseGitUrl url w = (Exit 1, World (w_fs w) (w_out w ++ parse_error url)).
Proof.
  destruct (parseGitUrl_ends url w) as [[p E]|E]; [left | by right].
  destruct (parseGitUrl_return_inv _ _ _ _ E) as (host & body & rp & Hs & Hne & Hrp & -> & _).
  by exists host, body, rp.
Qed.

(** X2: whatever [parseGitUrl] returns was read off the identifier: the
    organization holds no slash, neither field holds a line terminator, and
    the identifier is some prefix, then the organization, then (after a
    slash) the project path when there is one, then nothing or [.git]. *)
Theorem parseGitUrl_fields (url : string) (w w' : world) (p : parsed) :
  parseGitUrl url w = (Return p, w') →
  w' = w ∧
  Str.free_of (Ascii.eqb "/") (org p) = true ∧
  Str.free_of Regex.is_line_terminator (org p) = true ∧
  Str.free_of Regex.is_line_terminator (projectPath p) = true ∧
  ∃ pre sfx, tail_ok sfx = true ∧
    (url = pre +:+ org p +:+ sfx ∧ projectPath p = "" ∨
     url = pre +:+ org p +:+ "/" +:+ projectPath p +:+ sfx).
Proof.
  intros (host & body & rp & Hshape & Hne & Hrp & -> & ->)%parseGitUrl_return_inv.
  split; [done |].
  destruct (segments_of_cases rp) as [Hslash Hcases].
  apply repo_of_Some in Hrp as (_ & Hlt & sfx & -> & Hsfx).
  assert (∃ pre, url = pre +:+ rp +:+ sfx) as [pre ->].
  { destruct Hshape as [[-> _]|(scheme & _ & -> & _)].
    - exists ("git@" +:+ host +:+ ":"). unfold ssh_url. by rewrite !app_assoc.
    - exists (scheme +:+ "://" +:+ host +:+ "/"). unfold web_url. by rewrite !app_assoc. }
  split; [done |].
  destruct Hcases as [[Hrp Hpp]|Hrp].
  - rewrite Hpp. split_and!; [by rewrite <- Hrp | done |].
    exists pre, sfx. split; [done |]. left. by rewrite <- Hrp.
  - rewrite Hrp, !free_of_app in Hlt.
    apply andb_prop in Hlt as [H1 [_ H2]%andb_prop].
    split_and!; [done | done |].
    exists pre, sfx. split; [done |]. right.
    rewrite Hrp at 1. by rewrite !app_assoc.
Qed.

Lemma parseGitUrl_fields_witness :
  ∃ pre sfx, tail_ok sfx = true ∧
    ("git@github.com:org/group/project.git" = pre +:+ "org" +:+ sfx ∧ "group/project" = "" ∨
     "git@github.com:org/group/project.git" = pre +:+ "org" +:+ "/" +:+ "group/project" +:+ sfx).
Proof.
  exact (proj2 (proj2 (proj2 (proj2 (parseGitUrl_fields
    "git@github.com:org/group/project.git" (World ∅ []) (World ∅ [])
    (Parsed "org" "group/project") ltac:(vm_compute; reflexivity)))))).
Defined.

(** *** The configuration *)

(** X3: an assignment line of [.env].  With white space allowed before the
    key, around the equals sign and after the value (a carriage return
    included), the line sets the key to the value, both without the padding
    and otherwise untouched: the value may hold white space and further
    equals signs.  The key is not empty, holds no equals sign, does not
    start with [#] and is not [__proto__].  On the last line of the file,
    such a line sets its key whatever the lines before gave it, and every
    other key keeps what the lines before gave it. *)
Theorem env_line_assignment (env : gmap string string) (text p1 k p2 p3 v p4 : string) :
  all_space p1 = true → all_space p2 = true →
  all_space p3 = true → all_space p4 = true →
  tight k → tight v → k ≠ "" →
  Str.free_of (Ascii.eqb "=") k = true →
  Str.startsWith "#" k = false →
  k ≠ "__proto__" →
  env_line env (assignment p1 k p2 p3 v p4) = <[k := v]> env ∧
  (one_line (assignment p1 k p2 p3 v p4) = true →
   parse_env (text +:+ nl +:+ assignment p1 k p2 p3 v p4) = <[k := v]> (parse_env text)).
Proof.
  intros H1 H2 H3 H4 Hk Hv Hne Heq Hhash Hproto.
  assert (∀ env, env_line env (assignment p1 k p2 p3 v p4) = <[k := v]> env) as Hline.
  { clear env. intros env.
    set (x := if bool_decide (v = "") then "" else p3 +:+ v).
    assert (Str.trim (assignment p1 k p2 p3 v p4) = (k +:+ p2) +:+ String "=" x) as Htrim.
    { unfold assignment, Str.trim. rewrite trim_start_spaces by done.
      rewrite trim_start_tight_app by done.
      change ("=" +:+ ?t) with (String "=" t). rewrite <- (app_assoc k p2).
      rewrite (trim_end_app (k +:+ p2)). simpl (Str.trim_end (String _ _)).
      assert (Str.trim_end (p3 +:+ v +:+ p4) = x) as ->.
      { assert (Str.trim_end (v +:+ p4) = v) as Hvp.
        { rewrite trim_end_app, (trim_end_space_only p4 H4).
          rewrite bool_decide_eq_true_2 by done. by apply tight_end. }
        rewrite trim_end_app, Hvp.
        unfold x. case_bool_decide; [by apply trim_end_space_only | done]. }
      by rewrite bool_decide_eq_false_2. }
    unfold env_line. cbv zeta. rewrite Htrim.
    destruct k as [|c k]; [done |].
    rewrite bool_decide_eq_false_2.
    2:{ rewrite !app_cons. done. }
    rewrite !app_cons, (startsWith_cons _ _ _ k), Hhash. rewrite <- !app_cons.
    cbn [orb]. rewrite index_of_app.
    2:{ rewrite free_of_app, Heq. simpl. by apply (all_space_free "="). }
    rewrite take_app, drop_app.
    assert (Str.trim (String c k +:+ p2) = String c k) as ->.
    { rewrite <- (app_nil_l (String c k +:+ p2)). by apply trim_padded. }
    assert (Str.trim x = v) as ->.
    { unfold x. case_bool_decide as Hv'; [by subst |].
      rewrite <- (app_nil_r (p3 +:+ v)), app_assoc. by apply trim_padded. }
    by rewrite bool_decide_eq_false_2.
  }
  split; [apply Hline |]. intros Hl.
  rewrite parse_env_app, split_free by exact Hl. cbn [foldl]. apply Hline.
Qed.

Lemma env_line_assignment_witness :
  env_line ∅ (assignment "  " "SOURCES" " " "  " "/src, /more=x" (String "013" ""))
  = <["SOURCES" := "/src, /more=x"]> ∅ ∧
  parse_env ("SOURCES=/old" +:+ nl +:+
             assignment "  " "SOURCES" " " "  " "/src, /more=x" (String "013" ""))
  = <["SOURCES" := "/src, /more=x"]> (parse_env "SOURCES=/old").
Proof.
  destruct (env_line_assignment ∅ "SOURCES=/old" "  " "SOURCES" " " "  " "/src, /more=x"
              (String "013" "")) as [Hline Hfile]; try reflexivity; try discriminate.
  split; [exact Hline | apply Hfile; reflexivity].
Defined.



(** X5: an item of [SOURCES] that is empty or blank, as a trailing comma
    leaves one, makes the vault itself a source root. *)
Theorem getSrcDirs_blank_item (VAULT_ROOT : path) (env : gmap string string)
    (sources item : string) (w : world) :
  env !! "SOURCES" = Some sources → sources ≠ "" →
  item ∈ Str.split "," sources → all_space item = true →
  ∃ srcDirs, getSrcDirs VAULT_ROOT env w = (Return srcDirs, w) ∧ VAULT_ROOT ∈ srcDirs.
Proof.
  intros He Hne Hi Hs. unfold getSrcDirs. rewrite He, bool_decide_eq_false_2 by done.
  eexists. split; [done |]. apply list_elem_of_fmap. exists item. split; [| done].
  assert (Str.trim item = "") as ->.
  { unfold Str.trim. rewrite <- (app_nil_r item), trim_start_spaces by done. done. }
  unfold Path.resolve. simpl. by rewrite segments_nil.
Qed.

Lemma getSrcDirs_blank_item_witness :
  ∃ srcDirs,
    getSrcDirs ["vault"] (<["SOURCES" := "/src,"]> ∅) (World ∅ []) =
      (Return srcDirs, World ∅ []) ∧
    ["vault"] ∈ srcDirs.
Proof.
  apply (getSrcDirs_blank_item ["vault"] (<["SOURCES" := "/src,"]> ∅) "/src," "").
  - vm_compute. reflexivity.
  - discriminate.
  - apply list_elem_of_In. simpl. tauto.
  - reflexivity.
Defined.

(** X6: when the configuration is incomplete, each of the three commands
    ends before it runs git or touches the file system, in one of three
    ways: [.env] exists but cannot be read as a file (the exception of
    [readFileSync] leaves the program, nothing is printed); [.env] does not
    exist (two lines of errors, exit code 1); [.env] gives [SOURCES] no
    value (one line, exit code 1). *)
Theorem commands_need_config (VAULT_ROOT : path) (platform : string)
    (git : git_cmd → FS → bool * FS) (url : string) (linkOverride : option string)
    (m : M unit) (fs : FS) (out : list event) :
  configured VAULT_ROOT fs = None →
  m ∈ [cmdPull VAULT_ROOT platform git; cmdAdd VAULT_ROOT platform git url linkOverride;
       cmdStatus VAULT_ROOT platform] →
  ∃ r out', m (World fs out) = (r, World fs (out ++ out')) ∧
    (r = Throw "readFileSync" ∧ out' = [] ∧ existsSync fs (ENV_FILE VAULT_ROOT) = true ∨
     r = Exit 1 ∧ out' = env_missing VAULT_ROOT ∧
       existsSync fs (ENV_FILE VAULT_ROOT) = false ∨
     r = Exit 1 ∧ out' = sources_missing ∧ existsSync fs (ENV_FILE VAULT_ROOT) = true).
Proof.
  intros Hc Hm. repeat (apply elem_of_cons in Hm as [->|Hm]).
  - by apply without_config.
  - by apply without_config.
  - by apply without_config.
  - by apply elem_of_nil in Hm.
Qed.

Lemma commands_need_config_witness :
  ∃ r out', cmdPull ["vault"] "linux" Sample.git_ok (World Sample.fs_scenario []) =
            (r, World Sample.fs_scenario ([] ++ out')) ∧
    (r = Throw "readFileSync" ∧ out' = [] ∧
       existsSync Sample.fs_scenario (ENV_FILE ["vault"]) = true ∨
     r = Exit 1 ∧ out' = env_missing ["vault"] ∧
       existsSync Sample.fs_scenario (ENV_FILE ["vault"]) = false ∨
     r = Exit 1 ∧ out' = sources_missing ∧
       existsSync Sample.fs_scenario (ENV_FILE ["vault"]) = true).
Proof.
  apply (commands_need_config ["vault"] "linux" Sample.git_ok "" None).
  - vm_compute. reflexivity.
  - apply elem_of_cons. by left.
Defined.

(** *** The tools *)


(** *** Link reconciliation *)

(** X8: [ensureLink] prints nothing, never removes or replaces an entry of
    the file system, and ends with one of its three answers or with the
    exception of [mkdirSync].  When something exists at the link path it
    answers [exists] and changes nothing; when it answers [created], a link
    to the target sits at the link path. *)
Theorem ensureLink_frame (platform : string) (link target : path) (fs : FS)
    (out : list event) (r : completion link_status) (w' : world) :
  ensureLink platform link target (World fs out) = (r, w') →
  (∀ p i, fs !! p = Some i → w_fs w' !! p = Some i) ∧
  w_out w' = out ∧
  ((∃ s, r = Return s) ∨ r = Throw "mkdirSync") ∧
  (existsSync fs link = true → r = Return exists_ ∧ w_fs w' = fs) ∧
  (r = Return created → link_at (w_fs w') link target).
Proof.
  rewrite ensureLink_cases. intros H.
  assert (fs ⊆ w_fs w' ∧ w_out w' = out ∧
    ((∃ s, r = Return s) ∨ r = Throw "mkdirSync") ∧
    (existsSync fs link = true → r = Return exists_ ∧ w_fs w' = fs) ∧
    (r = Return created → link_at (w_fs w') link target)) as (H1 & H2 & H3 & H4 & H5).
  { destruct (existsSync fs link).
    { injection H as <- <-. split_and!; try done. left. by eexists. }
    destruct (mkdirSync_recursive fs (Path.dirname link)) as [fs1 ok] eqn:Emk.
    apply mkdirp_from_subseteq in Emk. destruct ok.
    2:{ injection H as <- <-. split_and!; try done. by right. }
    destruct (symlinkSync fs1 target link) as [fs2|] eqn:Esym; injection H as <- <-.
    - split_and!; try done.
      + pose proof (symlinkSync_Some _ _ _ _ Esym)
          as (c & nm & pm & _ & _ & _ & _ & _ & Hn & -> & _).
        etrans; [exact Emk |]. by apply insert_subseteq.
      + left. by eexists.
      + intros _. by eapply created_link_at.
    - split_and!; try done. left. by eexists. }
  split_and!; try done. intros p i Hp. by eapply lookup_weaken.
Qed.

Lemma ensureLink_frame_witness :
  link_at
    (w_fs (ensureLink "linux" ["vault"; "repoA"] ["src"; "repoA"]
             (World Sample.fs_scenario [])).2)
    ["vault"; "repoA"] ["src"; "repoA"].
Proof.
  apply (ensureLink_frame "linux" ["vault"; "repoA"] ["src"; "repoA"]
           Sample.fs_scenario [] (Return created) _).
  - vm_compute. reflexivity.
  - reflexivity.
Defined.

(** X9: the place of a repository in the vault mirrors its place under
    its source root: for a repository at [src ++ s], [path.relative] gives
    the segments [s] joined by slashes and [path.join] with the vault gives
    [vault ++ s], as long as every segment can stand for a name. *)
Theorem link_path_mirrors (vault src s : path) :
  forallb valid_name s = true →
  Path.relative src (src ++ s) = Str.join "/" s ∧
  Path.join vault (Path.relative src (src ++ s)) = vault ++ s.
Proof.
  intros Hs. unfold Path.relative. rewrite drop_common_app. simpl.
  split; [done |]. unfold Path.join, Path.trailing, Path.segments.
  destruct s as [|x s].
  - simpl. by rewrite (right_id_L [] (++)).
  - rewrite split_join by done. rewrite fold_norm_step by done.
    rewrite (bool_decide_eq_false_2 (last (x :: s) = Some "")), andb_false_r; [done |].
    intros Hl. apply last_Some in Hl as [l' Hl].
    rewrite Hl, forallb_app in Hs. apply andb_prop in Hs as [_ Hs].
    cbn [forallb] in Hs. apply andb_prop in Hs as [Hv%valid_name_nonempty _]. done.
Qed.

Lemma link_path_mirrors_witness :
  Path.join ["vault"] (Path.relative ["src"] (["src"] ++ ["group"; "repoB"]))
  = ["vault"] ++ ["group"; "repoB"].
Proof. exact (proj2 (link_path_mirrors ["vault"] ["src"] ["group"; "repoB"] eq_refl)). Defined.

(** *** Discovery *)

(** X10: [findGitRepos] lists no repository twice, and it lists exactly the
    directories that its walk reaches and that hold a [.git] that
    [existsSync] sees; each of them lies under the root along names that
    are neither hidden nor [node_modules]. *)
Theorem findGitRepos_exactly (fs : FS) (root : path) (out : list path) :
  findGitRepos fs root = Some out →
  NoDup out ∧
  ∀ r, (r ∈ out ↔ reach fs root r ∧ marker fs r = true) ∧
       (r ∈ out → ∃ s, r = root ++ s ∧ Forall ok_name s).
Proof.
  intros Hout. destruct (findGitRepos_found _ _ _ Hout) as (Hnd & _ & Hunder).
  split; [done |]. intros r. split; [split |].
  - unfold findGitRepos in Hout. destruct (existsSync fs root); cbn [negb] in Hout.
    + intros Hr. destruct (walk_sound _ _ _ _ _ Hout r Hr) as [?%elem_of_nil|?]; done.
    + injection Hout as <-. by intros ?%elem_of_nil.
  - intros [Hreach Hm].
    pose proof (reach_exists _ _ _ Hreach Hm) as Hex.
    unfold findGitRepos in Hout. rewrite Hex in Hout. cbn [negb] in Hout.
    by eapply walk_complete.
  - intros Hr. destruct (Hunder r Hr) as (s & -> & Hs & _). by exists s.
Qed.

Lemma findGitRepos_exactly_witness :
  NoDup [["src"; "group"; "repoB"]; ["src"; "repoA"]] ∧
  ∀ r, (r ∈ [["src"; "group"; "repoB"]; ["src"; "repoA"]]
        ↔ reach Sample.fs_scenario ["src"] r ∧ marker Sample.fs_scenario r = true) ∧
       (r ∈ [["src"; "group"; "repoB"]; ["src"; "repoA"]]
        → ∃ s, r = ["src"] ++ s ∧ Forall ok_name s).
Proof.
  apply (findGitRepos_exactly Sample.fs_scenario ["src"]
           [["src"; "group"; "repoB"]; ["src"; "repoA"]]).
  vm_compute. reflexivity.
Defined.

(** *** Status *)

(** X11: with a complete configuration, [cmdStatus] always returns and
    leaves the file system as it was.  It prints the source roots, one line
    per repository found under each root in turn ([OK] when something
    exists at its place in the vault, [--] otherwise), then the number of
    repositories, the number of those marked [OK] and the number of the
    others. *)
Theorem cmdStatus_report (VAULT_ROOT : path) (platform : string) (fs : FS)
    (out : list event) (srcDirs : list path) :
  configured VAULT_ROOT fs = Some srcDirs →
  cmdStatus VAULT_ROOT platform (World fs out) =
  (Return (), World fs (out ++ status_report VAULT_ROOT platform fs srcDirs)).
Proof.
  intros Hc. unfold cmdStatus. rewrite (with_config _ _ _ _ _ Hc).
  apply cmdStatus_with_run.
Qed.

Lemma cmdStatus_report_witness :
  cmdStatus ["vault"] "linux" (World SampleConfig.fs_configured []) =
  (Return (), World SampleConfig.fs_configured
     ([] ++ status_report ["vault"] "linux" SampleConfig.fs_configured [["src"]])).
Proof.
  apply (cmdStatus_report ["vault"] "linux" SampleConfig.fs_configured [] [["src"]]).
  vm_compute. reflexivity.
Defined.

(** A directory is listed in the order of the names of its entries, code
    unit by code unit (capital letters before small ones); the repositories
    that [findGitRepos] returns, and with them the lines of [cmdStatus], come
    in that order. *)
Example findGitRepos_in_name_order :
  findGitRepos SampleLinks.fs_six ["s"] =
  Some [["s"; "B"]; ["s"; "a"]; ["s"; "c"]; ["s"; "d"]; ["s"; "e"]; ["s"; "f"]] ∧
  status_report ["vault"] "linux" SampleLinks.fs_six [["s"]] =
  [Log ""; Log "Sources: /s"; Log "";
   Log "  --  B"; Log "  --  a"; Log "  --  c"; Log "  --  d"; Log "  --  e";
   Log "  --  f";
   Log ""; Log "6 repos (0 linked, 6 without symlink)."].
Proof. split; vm_compute; reflexivity. Qed.

(** *** Pull-all *)

(** X12: once the source roots are known, [cmdPull] never exits: whatever
    git does (a failed pull included) and whatever becomes of the links, it
    returns, or the exception of a [mkdirSync] leaves it. *)
Theorem cmdPull_never_exits (VAULT_ROOT : path) (platform : string)
    (git : git_cmd → FS → bool * FS) (srcDirs : list path) (w : world) :
  tame (eq "mkdirSync") (λ _, False) (cmdPull_with VAULT_ROOT platform git srcDirs w).1.
Proof.
  revert w. change (safe (eq "mkdirSync") (λ _, False)
                      (cmdPull_with VAULT_ROOT platform git srcDirs)).
  unfold cmdPull_with. safe_tac.
  - apply safe_collect.
  - by apply safe_pull_one.
Qed.

(** X13: when no repository is found under any source root (as the file
    system is after the pull of the vault itself), [cmdPull] says so and
    returns; the file system is as that first pull left it. *)
Theorem cmdPull_nothing_found (VAULT_ROOT : path) (platform : string)
    (git : git_cmd → FS → bool * FS) (srcDirs : list path) (fs : FS) (out : list event) :
  discovered (git (GitPull VAULT_ROOT) fs).2 srcDirs = [] →
  cmdPull_with VAULT_ROOT platform git srcDirs (World fs out) =
  (Return (), World (git (GitPull VAULT_ROOT) fs).2
                    (out ++ pull_banner ++ [nothing_found srcDirs])).
Proof.
  intros Hd. unfold cmdPull_with. step. destruct (git _ fs) as [ok fs1]. cbn [snd] in *.
  step. rewrite bind_run, collect_run. cbn [w_fs]. rewrite Hd. cbn [fmap list_fmap app length].
  rewrite decide_True by done. step. unfold pull_banner, nothing_found.
  by rewrite <- !(assoc_L (++)).
Qed.

Lemma cmdPull_nothing_found_witness :
  cmdPull_with ["vault"] "linux" Sample.git_ok [["nowhere"]] (World Sample.fs_scenario []) =
  (Return (), World (Sample.git_ok (GitPull ["vault"]) Sample.fs_scenario).2
                    ([] ++ pull_banner ++ [nothing_found [["nowhere"]]])).
Proof.
  apply (cmdPull_nothing_found ["vault"] "linux" Sample.git_ok [["nowhere"]]
           Sample.fs_scenario []).
  vm_compute. reflexivity.
Defined.

(** X14: when [cmdPull] returns after it found repositories, its last line
    reports as pulled the number of repositories that were found right
    after the pull of the vault itself, and a number of new links that is
    not larger. *)
Theorem cmdPull_summary (VAULT_ROOT : path) (platform : string)
    (git : git_cmd → FS → bool * FS) (srcDirs : list path) (fs : FS) (out : list event)
    (w' : world) :
  cmdPull_with VAULT_ROOT platform git srcDirs (World fs out) = (Return (), w') →
  discovered (git (GitPull VAULT_ROOT) fs).2 srcDirs ≠ [] →
  ∃ n, n ≤ length (discovered (git (GitPull VAULT_ROOT) fs).2 srcDirs) ∧
    last (w_out w') =
    Some (pull_summary platform
            (length (discovered (git (GitPull VAULT_ROOT) fs).2 srcDirs)) n).
Proof.
  unfold cmdPull_with. step. destruct (git _ fs) as [ok fs1]. cbn [snd].
  step. rewrite bind_run, collect_run. cbn [w_fs]. rewrite (left_id_L [] (++)).
  intros H Hne. rewrite decide_False in H.
  2:{ rewrite length_fmap. by destruct (discovered fs1 srcDirs). }
  rewrite bind_run in H.
  destruct (for_of _ 0 _ _) as [[n|o|c|] w1] eqn:El; try done.
  apply pull_loop_count in El. rewrite length_fmap in *.
  destruct w1 as [fs2 out2]. step_in H. injection H as <-.
  exists n. split; [lia |]. cbn [w_out]. by rewrite last_snoc.
Qed.

Lemma cmdPull_summary_witness :
  ∃ n, n ≤ length (discovered (Sample.git_ok (GitPull ["vault"]) Sample.fs_scenario).2
                     [["src"]]) ∧
    last (w_out (cmdPull_with ["vault"] "linux" Sample.git_ok [["src"]]
                   (World Sample.fs_scenario [])).2) =
    Some (pull_summary "linux"
            (length (discovered (Sample.git_ok (GitPull ["vault"]) Sample.fs_scenario).2
                       [["src"]])) n).
Proof.
  apply (cmdPull_summary ["vault"] "linux" Sample.git_ok [["src"]] Sample.fs_scenario []).
  - vm_compute. reflexivity.
  - vm_compute. discriminate.
Defined.

(** *** Add-one *)

(** X15: with a complete configuration, an identifier that the parser
    rejects ends [cmdAdd] at once: exit code 1 after the two lines of the
    parser, git not run and the file system as it was. *)
Theorem cmdAdd_rejects_early (VAULT_ROOT : path) (platform : string)
    (git : git_cmd → FS → bool * FS) (url : string) (linkOverride : option string)
    (fs : FS) (out : list event) (srcDirs : list path) :
  configured VAULT_ROOT fs = Some srcDirs →
  (parseGitUrl url (World fs out)).1 = Exit 1 →
  cmdAdd VAULT_ROOT platform git url linkOverride (World fs out) =
  (Exit 1, World fs (out ++ parse_error url)).
Proof.
  intros Hc Hp. unfold cmdAdd. rewrite (with_config _ _ _ _ _ Hc).
  unfold cmdAdd_with. rewrite bind_run.
  destruct (parseGitUrl_ends url (World fs out)) as [[p E]|E]; rewrite E in *; done.
Qed.

Lemma cmdAdd_rejects_early_witness :
  cmdAdd ["vault"] "linux" Sample.git_ok "ftp://host/org/project" None
    (World SampleConfig.fs_configured []) =
  (Exit 1, World SampleConfig.fs_configured ([] ++ parse_error "ftp://host/org/project")).
Proof.
  apply (cmdAdd_rejects_early ["vault"] "linux" Sample.git_ok "ftp://host/org/project"
           None SampleConfig.fs_configured [] [["src"]]).
  - vm_compute. reflexivity.
  - vm_compute. reflexivity.
Defined.

(** X16: a clone that fails ends [cmdAdd] with exit code 1 before any link
    is made: the file system is as git left it after the parent directories
    of the clone path were created, and the last line printed is
    [Clone failed!]. *)
Theorem cmdAdd_clone_failed (VAULT_ROOT : path) (platform : string)
    (git : git_cmd → FS → bool * FS) (url : string) (linkOverride : option string)
    (base : path) (rest : list path) (p : parsed) (fs fs1 : FS) (out : list event) :
  parseGitUrl url (World fs out) = (Return p, World fs out) →
  existsSync fs (Path.join base (projectPath p)) = false →
  mkdirSync_recursive fs (Path.dirname (Path.join base (projectPath p))) = (fs1, true) →
  (git (GitClone url (Path.join base (projectPath p))) fs1).1 = false →
  cmdAdd_with VAULT_ROOT platform git (base :: rest) url linkOverride (World fs out) =
  (Exit 1,
   World (git (GitClone url (Path.join base (projectPath p))) fs1).2
     (out ++ add_header url (projectPath p) (Path.join base (projectPath p))
                (or_else linkOverride (projectPath p)) ++
      [Log "Cloning..."; Error "Clone failed!"])).
Proof.
  intros Hp Hex Hmk Hgit. unfold cmdAdd_with. rewrite bind_run, Hp. cbn [head].
  step. rewrite Hex. step. rewrite Hmk. cbn [fst snd]. step.
  destruct (git _ fs1) as [ok fs2]. cbn [fst snd] in *. subst ok. cbn [negb].
  step. unfold add_header. by rewrite <- !(assoc_L (++)).
Qed.

Lemma cmdAdd_clone_failed_witness :
  (cmdAdd_with ["vault"] "linux" SampleConfig.git_down [["src"]]
     "git@github.com:org/project.git" None (World Sample.fs_scenario [])).1 = Exit 1.
Proof.
  exact (f_equal fst (cmdAdd_clone_failed ["vault"] "linux" SampleConfig.git_down
    "git@github.com:org/project.git" None ["src"] [] (Parsed "org" "project")
    Sample.fs_scenario Sample.fs_scenario []
    ltac:(vm_compute; reflexivity) ltac:(vm_compute; reflexivity)
    ltac:(vm_compute; reflexivity) eq_refl)).
Defined.

(** *** The command line *)

(** X17: in every run in which the external commands return, and however
    they and the file system behave, the command line ends in one of three
    ways: it returns; it calls [process.exit], with code 0 when no command,
    an empty command, [--help] or [-h] was given and with code 1 otherwise;
    or an exception leaves it, thrown by the read of [.env] or by a
    recursive [mkdirSync] and by nothing else.  The walk of the source
    roots always comes to an end.  [process.exit(0)] is called exactly when
    help is asked for; the program has then only printed with
    [console.log], without looking for the tools and without touching the
    file system. *)
Theorem main_ends (VAULT_ROOT : path) (platform : string)
    (git : git_cmd → FS → bool * FS) (shell : string → FS → bool * FS)
    (args : list string) (w : world) :
  tame escaping (eq (if wants_help args then 0 else 1))
       (main VAULT_ROOT platform git shell args w).1 ∧
  ((main VAULT_ROOT platform git shell args w).1 = Exit 0 ↔ wants_help args = true) ∧
  (wants_help args = true →
   ∃ out', main VAULT_ROOT platform git shell args w
           = (Exit 0, World (w_fs w) (w_out w ++ out')) ∧
           ∀ e, e ∈ out' → ∃ s, e = Log s).
Proof.
  assert (safe escaping (eq (if wants_help args then 0 else 1))
            (main VAULT_ROOT platform git shell args)) as Hsafe.
  { rewrite main_run. destruct (wants_help args).
    - apply safe_bind; [apply safe_usage | intros _]. by apply safe_exit.
    - apply safe_bind; [apply safe_ensureTools | intros _].
      safe_tac.
      + apply safe_cmdPull.
      + apply safe_cmdAdd.
      + apply safe_cmdStatus. }
  split; [apply Hsafe |]. specialize (Hsafe w). split.
  - rewrite main_run in *. destruct (wants_help args).
    + split; [done | intros _]. unfold usage. by repeat step.
    + split; [| done]. intros Hx. rewrite Hx in Hsafe. simpl in Hsafe. done.
  - intros Hh. rewrite main_run, Hh. destruct w as [fs out]. unfold usage. step.
    cbn [w_fs w_out]. rewrite <- !(assoc_L (++)). eexists. split; [reflexivity |].
    intros e He. repeat (apply elem_of_cons in He as [->|He]; [by eexists |]).
    by apply elem_of_nil in He.
Qed.
